(** * portainer-mcp: the unified stack client and its tool handler

    A shallow embedding of
      - pkg/portainer/client/stack.go  (dual-path stack operations), and
      - internal/mcp/stack.go          (the stack tool handlers),
    together with the properties of the fallback classifier, the
    environment codec, the environment merge and the five façade
    operations.

    Conventions.  A Go [int]/[int64] is a [Z] (the conversions between the
    two are the identity on a 64-bit platform).  A Go [string] is a
    [string] of bytes.  A Go slice is a [slice], which keeps the
    difference between [nil] and an empty slice.  A Go [error] value is an
    [option error], [None] being [nil]. *)

From Stdlib Require Import ZArith Ascii String DecimalString DecimalZ DecimalPos.
From stdpp Require Import base option list strings gmap.

Local Open Scope string_scope.
Local Open Scope Z_scope.
Local Open Scope list_scope.

(** ** Go slices *)

Module GoSlice.

Inductive slice (A : Type) : Type :=
| Nil
| Slice (l : list A).
Arguments Nil {A}.
Arguments Slice {A} l.

Definition elems {A} (s : slice A) : list A :=
  match s with
  | Nil => []
  | Slice l => l
  end.

Definition len {A} (s : slice A) : Z := Z.of_nat (length (elems s)).

Definition is_nil {A} (s : slice A) : bool :=
  match s with
  | Nil => true
  | Slice _ => false
  end.

End GoSlice.
Export GoSlice.

(** ** The parts of package [strings] and [fmt] that the client uses *)

Module GoStrings.

Definition ascii_lower (c : ascii) : ascii :=
  let n := N_of_ascii c in
  if ((65 <=? n) && (n <=? 90))%N then ascii_of_N (n + 32) else c.

(** UTF-8 of U+0130 (capital I with dot above) is C4 B0; of U+212A
    (Kelvin sign) it is E2 84 AA.  [unicode.ToLower] sends them to the
    ASCII letters i and k. *)
Definition is_dotted_I (c c1 : ascii) : bool :=
  Ascii.eqb c "196" && Ascii.eqb c1 "176".

Definition is_kelvin (c c1 c2 : ascii) : bool :=
  Ascii.eqb c "226" && Ascii.eqb c1 "132" && Ascii.eqb c2 "170".

(** [strings.ToLower], as far as ASCII bytes of its result go: ASCII
    capitals are lowered and the two runes above become i and k.  Every
    other rune lowers to a rune outside ASCII (it is kept as it is
    here), so the test [Contains (ToLower s) m] for an ASCII [m] is the
    one the Go code computes. *)
Fixpoint ToLower (s : string) : string :=
  match s with
  | EmptyString => EmptyString
  | String c r =>
      match r with
      | EmptyString => String (ascii_lower c) EmptyString
      | String c1 r1 =>
          if is_dotted_I c c1 then String "i" (ToLower r1)
          else
            match r1 with
            | EmptyString => String (ascii_lower c) (ToLower r)
            | String c2 r2 =>
                if is_kelvin c c1 c2 then String "k" (ToLower r2)
                else String (ascii_lower c) (ToLower r)
            end
      end
  end.

Fixpoint Contains (s substr : string) : bool :=
  String.prefix substr s
  || match s with
     | EmptyString => false
     | String _ r => Contains r substr
     end.

Definition HasPrefix (s p : string) : bool := String.prefix p s.

Fixpoint TrimSuffix (s suffix : string) : string :=
  match s with
  | EmptyString => EmptyString
  | String c r =>
      if String.eqb s suffix then EmptyString else String c (TrimSuffix r suffix)
  end.

(** The verb [%d]. *)
Definition Itoa (n : Z) : string := NilZero.string_of_int (Z.to_int n).

End GoStrings.

(** ** Errors *)

(** The error values the client builds or receives:
    - [errorString]: [errors.New], [fmt.Errorf] without [%w], and the
      errors of the HTTP stack, the JSON decoder and the edge SDK, which
      never hold an [*apiStatusError];
    - [apiStatusError]: the client's own status-aware error;
    - [wrapError]: [fmt.Errorf] with one [%w]; [msg] is the formatted
      text and [err] the operand of [%w]. *)
Inductive error : Type :=
| errorString (s : string)
| apiStatusError (statusCode : Z) (body : string)
| wrapError (msg : string) (err : error).

#[global] Instance error_eq_dec : EqDecision error.
Proof. solve_decision. Defined.

Definition Error (e : error) : string :=
  match e with
  | errorString s => s
  | apiStatusError statusCode body =>
      if String.eqb body "" then
        "api returned status " +:+ GoStrings.Itoa statusCode
      else
        "api returned status " +:+ GoStrings.Itoa statusCode +:+ ": " +:+ body
  | wrapError msg _ => msg
  end.

(** [errors.As(err, &apiErr)] for [apiErr : *apiStatusError]: the first
    status-aware error on the [Unwrap] chain. *)
Fixpoint errors_As (e : error) : option (Z * string) :=
  match e with
  | errorString _ => None
  | apiStatusError statusCode body => Some (statusCode, body)
  | wrapError _ err => errors_As err
  end.

(** [fmt.Errorf(pre + "%w" + post, err)] *)
Definition Errorf_w (pre : string) (err : error) (post : string) : error :=
  wrapError (pre +:+ Error err +:+ post) err.

(** ** Fallback classifier *)

Definition StatusNotFound : Z := 404.
Definition StatusOK : Z := 200.
Definition StatusMultipleChoices : Z := 300.

Definition isEdgeStackErrorMessage (message : string) : bool :=
  let lower := GoStrings.ToLower message in
  GoStrings.Contains lower "edgestackupdate" || GoStrings.Contains lower "edge stack".

Definition shouldFallbackToEdge (err : error) : bool :=
  match errors_As err with
  | Some (statusCode, body) =>
      if (statusCode =? StatusNotFound)%Z then true
      else if isEdgeStackErrorMessage body then true
      else isEdgeStackErrorMessage (Error err)
  | None => isEdgeStackErrorMessage (Error err)
  end.

(** ** Data model (package [models]) *)

Record StackEnvVar : Type := { Name : string; Value : string }.

#[global] Instance StackEnvVar_eq_dec : EqDecision StackEnvVar.
Proof. solve_decision. Defined.

Definition envVar (name value : string) : StackEnvVar :=
  {| Name := name; Value := value |}.

Record Stack : Type := {
  ID : Z;
  StackName : string;
  CreatedAt : string;
  EnvironmentGroupIds : slice Z
}.

Record RegularStack : Type := {
  RegularID : Z;
  RegularName : string;
  Type_ : Z;
  EndpointId : Z;
  CreationDate : Z;
  Status : Z
}.

Record EdgeStack : Type := {
  EdgeID : Z;
  EdgeName : string;
  EdgeCreationDate : Z;
  EdgeGroups : slice Z
}.

(** ** JSON values and the decoder of package [encoding/json] *)

#[local] Set Warnings "-register-all".

Inductive json : Type :=
| JNull
| JBool (b : bool)
| JNumber (literal : string)
| JString (s : string)
| JArray (items : list json)
| JObject (members : list (string * json)).

(** A [json.RawMessage]: no bytes at all (the field was absent from the
    enclosing document), the text of a JSON value as the enclosing
    decoder kept it (so the value [null] is the four bytes of its
    literal), or bytes that are no JSON text, with the syntax error
    [json.Unmarshal] reports for them. *)
Inductive RawMessage : Type :=
| RawEmpty
| RawJSON (v : json)
| RawInvalid (syntaxError : error).

Module Json.

Definition kind (v : json) : string :=
  match v with
  | JNull => "null"
  | JBool _ => "bool"
  | JNumber _ => "number"
  | JString _ => "string"
  | JArray _ => "array"
  | JObject _ => "object"
  end.

Definition UnmarshalTypeError (v : json) (goType : string) : error :=
  errorString ("json: cannot unmarshal " +:+ kind v +:+ " into Go value of type " +:+ goType).

(** Case folding of object keys.  For field names without the letters k
    and s, such as [name] and [value], two keys fold alike here exactly
    when [encoding/json] takes one for the other. *)
Fixpoint foldName (s : string) : string :=
  match s with
  | EmptyString => EmptyString
  | String c r => String (GoStrings.ascii_lower c) (foldName r)
  end.

Inductive field : Type := FName | FValue.

Section Decoder.
(** The JSON keys of the two string fields (the first one and the
    second one) of the struct decoded into, and the name of its Go
    type. *)
Variables (nameKey valueKey goType : string).

(** An exact match of the key is preferred to a match up to case; the
    keys of the two fields are meant to differ, also up to case. *)
Definition findField (key : string) : option field :=
  if String.eqb key nameKey then Some FName
  else if String.eqb key valueKey then Some FValue
  else if String.eqb (foldName key) (foldName nameKey) then Some FName
  else if String.eqb (foldName key) (foldName valueKey) then Some FValue
  else None.

(** A string sets the field, [null] leaves it, anything else is a
    type error. *)
Definition setField (f : field) (v : json) (e : string * string)
  : error + string * string :=
  match v with
  | JString s =>
      inr match f with
          | FName => (s, e.2)
          | FValue => (e.1, s)
          end
  | JNull => inr e
  | _ => inl (UnmarshalTypeError v "string")
  end.

(** Members are stored in document order; keys of no field are
    skipped. *)
Fixpoint decodeMembers (members : list (string * json)) (e : string * string)
  : error + string * string :=
  match members with
  | [] => inr e
  | (key, v) :: rest =>
      match findField key with
      | None => decodeMembers rest e
      | Some f =>
          match setField f v e with
          | inl err => inl err
          | inr e' => decodeMembers rest e'
          end
      end
  end.

Definition decodeEntry (v : json) : error + string * string :=
  match v with
  | JObject members => decodeMembers members ("", "")
  | JNull => inr ("", "")
  | _ => inl (UnmarshalTypeError v goType)
  end.

Fixpoint decodeEntries (items : list json) : error + list (string * string) :=
  match items with
  | [] => inr []
  | v :: rest =>
      match decodeEntry v with
      | inl err => inl err
      | inr e =>
          match decodeEntries rest with
          | inl err => inl err
          | inr es => inr (e :: es)
          end
      end
  end.

(** [json.Unmarshal(raw, &dst)] for [var dst []T] (a nil slice); an
    entry is given by the contents of its two fields. *)
Definition Unmarshal (raw : RawMessage) : error + slice (string * string) :=
  match raw with
  | RawEmpty => inl (errorString "unexpected end of JSON input")
  | RawInvalid syntaxError => inl syntaxError
  | RawJSON JNull => inr Nil
  | RawJSON (JArray items) =>
      match decodeEntries items with
      | inl err => inl err
      | inr es => inr (Slice es)
      end
  | RawJSON v => inl (UnmarshalTypeError v ("[]" +:+ goType))
  end.

(** [json.Marshal] of a slice of such structs. *)
Definition marshalEntry (e : string * string) : json :=
  JObject [(nameKey, JString e.1); (valueKey, JString e.2)].

Definition Marshal (s : slice (string * string)) : RawMessage :=
  match s with
  | Nil => RawJSON JNull
  | Slice l => RawJSON (JArray (marshalEntry <$> l))
  end.

End Decoder.

End Json.

(** ** Environment codec *)

Record stackEnvEntryAlt : Type := { AltName : string; AltValue : string }.

Definition slice_map {A B} (f : A → B) (s : slice A) : slice B :=
  match s with
  | Nil => Nil
  | Slice l => Slice (f <$> l)
  end.

Section Client.

(** The declaration of [models.StackEnvVar] is not part of the sources
    at hand: the JSON keys of its fields [Name] and [Value] are
    parameters. *)
Variables (nameKey valueKey : string).

Definition Unmarshal_StackEnvVar (raw : RawMessage) : error + slice StackEnvVar :=
  match Json.Unmarshal nameKey valueKey "models.StackEnvVar" raw with
  | inl err => inl err
  | inr s => inr (slice_map (λ e, {| Name := e.1; Value := e.2 |}) s)
  end.

Definition Unmarshal_stackEnvEntryAlt (raw : RawMessage) : error + slice stackEnvEntryAlt :=
  match Json.Unmarshal "Name" "Value" "client.stackEnvEntryAlt" raw with
  | inl err => inl err
  | inr s => inr (slice_map (λ e, {| AltName := e.1; AltValue := e.2 |}) s)
  end.

Definition Marshal_StackEnvVar (s : slice StackEnvVar) : RawMessage :=
  Json.Marshal nameKey valueKey (slice_map (λ e, (Name e, Value e)) s).

Definition Marshal_stackEnvEntryAlt (s : slice stackEnvEntryAlt) : RawMessage :=
  Json.Marshal "Name" "Value" (slice_map (λ e, (AltName e, AltValue e)) s).

Definition hasEnvValues (env : slice StackEnvVar) : bool :=
  existsb (λ entry, negb (String.eqb (Name entry) "") || negb (String.eqb (Value entry) ""))
          (elems env).

Definition emptyOrNull (raw : RawMessage) : bool :=
  match raw with
  | RawEmpty => true
  | RawJSON JNull => true
  | _ => false
  end.

(** The second half of [parseStackEnv], from [var alt] on. *)
Definition parseStackEnv_alt (raw : RawMessage) : error + slice StackEnvVar :=
  match Unmarshal_stackEnvEntryAlt raw with
  | inl err => inl (Errorf_w "failed to parse stack env: " err "")
  | inr alt =>
      if (len alt =? 0)%Z then inr Nil
      else
        inr (Slice ((λ entry, {| Name := AltName entry; Value := AltValue entry |})
                      <$> elems alt))
  end.

(** A Go result [(v, nil)] is [inr v] and [(nil, err)] is [inl err]. *)
Definition parseStackEnv (raw : RawMessage) : error + slice StackEnvVar :=
  if emptyOrNull raw then inr Nil
  else
    match Unmarshal_StackEnvVar raw with
    | inr env =>
        if (len env =? 0)%Z || hasEnvValues env then inr env
        else parseStackEnv_alt raw
    | inl _ => parseStackEnv_alt raw
    end.

(** ** Environment merge *)

(** First loop of [mergeEnvOverrides]: the state is
    [(overrideValues, overrideOrder)]. *)
Definition collectOverride (st : gmap string string * list string) (override : StackEnvVar)
  : gmap string string * list string :=
  let '(overrideValues, overrideOrder) := st in
  if String.eqb (Name override) "" then st
  else
    (<[Name override := Value override]> overrideValues,
     match overrideValues !! Name override with
     | Some _ => overrideOrder
     | None => overrideOrder ++ [Name override]
     end).

(** Second loop: the state is [(merged, seen)]. *)
Definition mergeCurrent (overrideValues : gmap string string)
    (st : list StackEnvVar * gmap string bool) (current : StackEnvVar)
  : list StackEnvVar * gmap string bool :=
  let '(merged, seen) := st in
  if String.eqb (Name current) "" then st
  else
    match overrideValues !! Name current with
    | Some overrideValue =>
        (merged ++ [{| Name := Name current; Value := overrideValue |}],
         <[Name current := true]> seen)
    | None => (merged ++ [current], <[Name current := true]> seen)
    end.

(** Third loop; a missing key of a Go map reads as the zero value. *)
Definition appendOverride (overrideValues : gmap string string)
    (st : list StackEnvVar * gmap string bool) (name : string)
  : list StackEnvVar * gmap string bool :=
  let '(merged, seen) := st in
  if default false (seen !! name) then st
  else
    (merged ++ [{| Name := name; Value := default "" (overrideValues !! name) |}],
     <[name := true]> seen).

Definition mergeEnvOverrides (existing overrides : slice StackEnvVar) : slice StackEnvVar :=
  if (len overrides =? 0)%Z then existing
  else
    let '(overrideValues, overrideOrder) := foldl collectOverride (∅, []) (elems overrides) in
    if (Z.of_nat (size overrideValues) =? 0)%Z then existing
    else
      let st := foldl (mergeCurrent overrideValues) ([], ∅) (elems existing) in
      let '(merged, _) := foldl (appendOverride overrideValues) st overrideOrder in
      Slice merged.

(** The loop of [GetStackEnvNames]: the state is [(names, seen)]. *)
Definition collectName (st : list string * gmap string bool) (entry : StackEnvVar)
  : list string * gmap string bool :=
  let '(names, seen) := st in
  if String.eqb (Name entry) "" || default false (seen !! Name entry) then st
  else (names ++ [Name entry], <[Name entry := true]> seen).

Definition envNames (env : slice StackEnvVar) : slice string :=
  Slice (foldl collectName ([], ∅) (elems env)).1.

(** ** Transport, SDK and the trace of remote calls *)

Record Request : Type := {
  Method : string;
  URL : string;
  APIKey : string;
  InsecureSkipVerify : bool
}.

Record updatePayload : Type := {
  StackFileContent : string;
  Prune : bool;
  PullImage : bool;
  Env : slice StackEnvVar
}.

Record detailsResponse : Type := {
  details_EndpointId : Z;
  details_Env : RawMessage
}.

(** What [io.ReadAll(resp.Body)] gives, and for a body read in full
    what [json.Unmarshal(body, &response)] makes of it. *)
Inductive body (A : Type) : Type :=
| ReadFailed (partial : string) (err : error)
| ReadAll (text : string) (doc : error + A).
Arguments ReadFailed {A} partial err.
Arguments ReadAll {A} text doc.

Definition text {A} (b : body A) : string :=
  match b with
  | ReadFailed partial _ => partial
  | ReadAll text _ => text
  end.

(** One exchange with the REST surface, as the client sees it. *)
Inductive exchange (A : Type) : Type :=
| NewRequestFailed (err : error)
| DoFailed (err : error)
| Response (StatusCode : Z) (Body : body A).
Arguments NewRequestFailed {A} err.
Arguments DoFailed {A} err.
Arguments Response {A} StatusCode Body.

Record Network : Type := {
  stacksEndpoint : Request → exchange (slice RegularStack);
  stackFileEndpoint : Request → exchange string;
  stackDetailsEndpoint : Request → exchange detailsResponse;
  stackUpdateEndpoint : Request → updatePayload → exchange unit
}.

(** The edge SDK, through its four primitives. *)
Record PortainerAPI : Type := {
  ListEdgeStacks : error + slice EdgeStack;
  GetEdgeStackFile : Z → error + string;
  CreateEdgeStack : string → string → slice Z → error + Z;
  UpdateEdgeStack : Z → string → slice Z → option error
}.

Record PortainerClient : Type := {
  cli : PortainerAPI;
  serverURL : string;
  token : string;
  skipTLSVerify : bool
}.

Inductive event : Type :=
| HTTP (req : Request) (payload : option updatePayload)
| SDK_ListEdgeStacks
| SDK_GetEdgeStackFile (id : Z)
| SDK_CreateEdgeStack (name file : string) (groups : slice Z)
| SDK_UpdateEdgeStack (id : Z) (file : string) (groups : slice Z).

Definition isEdgeCall (e : event) : bool :=
  match e with
  | HTTP _ _ => false
  | _ => true
  end.

Definition isEdgeUpdate (e : event) : bool :=
  match e with
  | SDK_UpdateEdgeStack _ _ _ => true
  | _ => false
  end.

(** Computations that append to the trace of remote calls. *)
Definition io (A : Type) : Type := list event → A * list event.

Definition ret {A} (a : A) : io A := λ tr, (a, tr).

Definition bind {A B} (m : io A) (k : A → io B) : io B :=
  λ tr, let '(a, tr') := m tr in k a tr'.

Definition emit (e : event) : io unit := λ tr, (tt, tr ++ [e]).

Definition run {A} (m : io A) : A * list event := m [].

Notation "'do' x <- m ; k" := (bind m (λ x, k))
  (at level 10, x name, m at level 100, k at level 200).
Notation "'do_' m ; k" := (bind m (λ _, k))
  (at level 10, m at level 100, k at level 200).

Variable net : Network.

(** The user-facing address of the REST surface. *)
Definition apiBase (c : PortainerClient) : string :=
  let serverURL :=
    if negb (GoStrings.HasPrefix (serverURL c) "http://")
       && negb (GoStrings.HasPrefix (serverURL c) "https://")
    then "https://" +:+ serverURL c
    else serverURL c in
  GoStrings.TrimSuffix serverURL "/".

Definition newRequest (c : PortainerClient) (method apiURL : string) : Request :=
  {| Method := method; URL := apiURL; APIKey := token c;
     InsecureSkipVerify := skipTLSVerify c |}.

Definition listRegularStacksHTTP (c : PortainerClient) : io (error + slice RegularStack) :=
  let req := newRequest c "GET" (apiBase c +:+ "/api/stacks") in
  match stacksEndpoint net req with
  | NewRequestFailed err => ret (inl (Errorf_w "failed to create request: " err ""))
  | DoFailed err =>
      do_ emit (HTTP req None);
      ret (inl (Errorf_w "failed to make http request: " err ""))
  | Response StatusCode Body =>
      do_ emit (HTTP req None);
      if negb (StatusCode =? StatusOK)%Z then
        ret (inl (errorString ("api returned status " +:+ GoStrings.Itoa StatusCode
                               +:+ ": " +:+ text Body)))
      else
        match Body with
        | ReadFailed _ err => ret (inl (Errorf_w "failed to read response body: " err ""))
        | ReadAll _ (inl err) => ret (inl (Errorf_w "failed to parse response json: " err ""))
        | ReadAll _ (inr stacks) => ret (inr stacks)
        end
  end.

Definition getRegularStackFileHTTP (c : PortainerClient) (id : Z) : io (error + string) :=
  let req := newRequest c "GET" (apiBase c +:+ "/api/stacks/" +:+ GoStrings.Itoa id +:+ "/file") in
  match stackFileEndpoint net req with
  | NewRequestFailed err => ret (inl (Errorf_w "failed to create request: " err ""))
  | DoFailed err =>
      do_ emit (HTTP req None);
      ret (inl (Errorf_w "failed to make http request: " err ""))
  | Response StatusCode Body =>
      do_ emit (HTTP req None);
      if negb (StatusCode =? StatusOK)%Z then
        ret (inl (errorString ("api returned status " +:+ GoStrings.Itoa StatusCode
                               +:+ ": " +:+ text Body)))
      else
        match Body with
        | ReadFailed _ err => ret (inl (Errorf_w "failed to read response body: " err ""))
        | ReadAll _ (inl err) => ret (inl (Errorf_w "failed to parse response json: " err ""))
        | ReadAll _ (inr content) => ret (inr content)
        end
  end.

Definition getRegularStackDetailsHTTP (c : PortainerClient) (id : Z)
  : io (error + Z * slice StackEnvVar) :=
  let req := newRequest c "GET" (apiBase c +:+ "/api/stacks/" +:+ GoStrings.Itoa id) in
  match stackDetailsEndpoint net req with
  | NewRequestFailed err => ret (inl (Errorf_w "failed to create request: " err ""))
  | DoFailed err =>
      do_ emit (HTTP req None);
      ret (inl (Errorf_w "failed to make http request: " err ""))
  | Response StatusCode Body =>
      do_ emit (HTTP req None);
      if negb (StatusCode =? StatusOK)%Z then
        ret (inl (apiStatusError StatusCode (text Body)))
      else
        match Body with
        | ReadFailed _ err => ret (inl (Errorf_w "failed to read response body: " err ""))
        | ReadAll _ (inl err) => ret (inl (Errorf_w "failed to parse response json: " err ""))
        | ReadAll _ (inr response) =>
            match parseStackEnv (details_Env response) with
            | inl err => ret (inl err)
            | inr env => ret (inr (details_EndpointId response, env))
            end
        end
  end.

(** [json.Marshal] cannot fail on this payload (strings, booleans and a
    slice of structs of strings), so that error path is left out. *)
Definition updateRegularStackHTTP (c : PortainerClient) (id endpointId : Z)
    (file : string) (env : slice StackEnvVar) : io (option error) :=
  let apiURL := apiBase c +:+ "/api/stacks/" +:+ GoStrings.Itoa id
                +:+ "?endpointId=" +:+ GoStrings.Itoa endpointId in
  let payload := {| StackFileContent := file; Prune := false; PullImage := false;
                    Env := env |} in
  let req := newRequest c "PUT" apiURL in
  match stackUpdateEndpoint net req payload with
  | NewRequestFailed err => ret (Some (Errorf_w "failed to create request: " err ""))
  | DoFailed err =>
      do_ emit (HTTP req (Some payload));
      ret (Some (Errorf_w "failed to make http request: " err ""))
  | Response StatusCode Body =>
      do_ emit (HTTP req (Some payload));
      if (StatusCode <? StatusOK)%Z || (StatusMultipleChoices <=? StatusCode)%Z then
        ret (Some (apiStatusError StatusCode (text Body)))
      else ret None
  end.

(** ** Conversions (packages [models] and [utils]) *)

(** [time.Unix(sec, 0).Format(time.RFC3339)], which depends on the local
    time zone. *)
Variable formatRFC3339 : Z → string.

(** Modelled from the spec: [models.ConvertRegularStackToStack], whose
    package is not among the sources.  ID, name and formatted creation
    date are carried over; the list of environment groups is empty and
    not nil. *)
Definition ConvertRegularStackToStack (rs : RegularStack) : Stack :=
  {| ID := RegularID rs;
     StackName := RegularName rs;
     CreatedAt := formatRFC3339 (CreationDate rs);
     EnvironmentGroupIds := Slice [] |}.

(** Modelled from the spec: [models.ConvertEdgeStackToStack], whose
    package is not among the sources.  As above, with the environment
    groups taken from the edge groups; no groups give an empty list,
    never nil. *)
Definition ConvertEdgeStackToStack (es : EdgeStack) : Stack :=
  {| ID := EdgeID es;
     StackName := EdgeName es;
     CreatedAt := formatRFC3339 (EdgeCreationDate es);
     EnvironmentGroupIds := Slice (elems (EdgeGroups es)) |}.

(** Modelled from the spec: [utils.IntToInt64Slice], whose package is
    not among the sources: the given ids, in the same order. *)
Definition IntToInt64Slice (ints : slice Z) : slice Z := Slice (elems ints).

(** ** The façade *)

Definition listEdgeStacks (c : PortainerClient) (regularErr : option error)
  : io (error + slice Stack) :=
  do_ emit SDK_ListEdgeStacks;
  match ListEdgeStacks (cli c) with
  | inl edgeErr =>
      match regularErr with
      | Some err =>
          ret (inl (Errorf_w "failed to list regular stacks: " err
                      (" (edge stacks also failed: " +:+ Error edgeErr +:+ ")")))
      | None => ret (inl (Errorf_w "failed to list edge stacks: " edgeErr ""))
      end
  | inr edgeStacks => ret (inr (Slice (ConvertEdgeStackToStack <$> elems edgeStacks)))
  end.

Definition GetStacks (c : PortainerClient) : io (error + slice Stack) :=
  do r <- listRegularStacksHTTP c;
  match r with
  | inr regularStacks =>
      if (0 <? len regularStacks)%Z then
        ret (inr (Slice (ConvertRegularStackToStack <$> elems regularStacks)))
      else listEdgeStacks c None
  | inl err => listEdgeStacks c (Some err)
  end.

Definition getEdgeStackFile (c : PortainerClient) (id : Z) (regularErr : option error)
  : io (error + string) :=
  do_ emit (SDK_GetEdgeStackFile id);
  match GetEdgeStackFile (cli c) id with
  | inl edgeErr =>
      match regularErr with
      | Some err =>
          ret (inl (Errorf_w "failed to get regular stack file: " err
                      (" (edge stack also failed: " +:+ Error edgeErr +:+ ")")))
      | None => ret (inl (Errorf_w "failed to get edge stack file: " edgeErr ""))
      end
  | inr edgeFile => ret (inr edgeFile)
  end.

Definition GetStackFile (c : PortainerClient) (id : Z) : io (error + string) :=
  do r <- getRegularStackFileHTTP c id;
  match r with
  | inr file =>
      if negb (String.eqb file "") then ret (inr file)
      else getEdgeStackFile c id None
  | inl err => getEdgeStackFile c id (Some err)
  end.

Definition GetStackEnvNames (c : PortainerClient) (id : Z) : io (error + slice string) :=
  if String.eqb (serverURL c) "" || String.eqb (token c) "" then
    ret (inl (errorString "stack env names require server url and token"))
  else
    do r <- getRegularStackDetailsHTTP c id;
    match r with
    | inl err =>
        if shouldFallbackToEdge err then
          ret (inl (errorString "stack env names are not available for edge stacks"))
        else ret (inl (Errorf_w "failed to get stack details: " err ""))
    | inr (_, env) => ret (inr (envNames env))
    end.

Definition CreateStack (c : PortainerClient) (name file : string)
    (environmentGroupIds : slice Z) : io (error + Z) :=
  do_ emit (SDK_CreateEdgeStack name file (IntToInt64Slice environmentGroupIds));
  match CreateEdgeStack (cli c) name file (IntToInt64Slice environmentGroupIds) with
  | inl err => ret (inl (Errorf_w "failed to create edge stack: " err ""))
  | inr id => ret (inr id)
  end.

(** The fallback of [UpdateStack]; [err] is the failure of the regular
    path and [context] the text put before it. *)
Definition updateEdgeFallback (c : PortainerClient) (id : Z) (file : string)
    (environmentGroupIds : slice Z) (envOverrides : slice StackEnvVar)
    (context : string) (err : error) : io (option error) :=
  if (0 <? len envOverrides)%Z then
    ret (Some (errorString "stack env overrides are not supported for edge stacks"))
  else
    do_ emit (SDK_UpdateEdgeStack id file (IntToInt64Slice environmentGroupIds));
    match UpdateEdgeStack (cli c) id file (IntToInt64Slice environmentGroupIds) with
    | Some edgeErr =>
        ret (Some (Errorf_w context err
                     (" (edge stack also failed: " +:+ Error edgeErr +:+ ")")))
    | None => ret None
    end.

Definition UpdateStack (c : PortainerClient) (id : Z) (file : string)
    (environmentGroupIds : slice Z) (envOverrides : slice StackEnvVar) : io (option error) :=
  if negb (String.eqb (serverURL c) "") && negb (String.eqb (token c) "") then
    do r <- getRegularStackDetailsHTTP c id;
    match r with
    | inr (endpointId, env) =>
        let mergedEnv := mergeEnvOverrides env envOverrides in
        do err <- updateRegularStackHTTP c id endpointId file mergedEnv;
        match err with
        | None => ret None
        | Some err =>
            if shouldFallbackToEdge err then
              updateEdgeFallback c id file environmentGroupIds envOverrides
                "failed to update regular stack: " err
            else ret (Some (Errorf_w "failed to update regular stack: " err ""))
        end
    | inl err =>
        if shouldFallbackToEdge err then
          updateEdgeFallback c id file environmentGroupIds envOverrides
            "failed to get regular stack details: " err
        else ret (Some (Errorf_w "failed to get regular stack details: " err ""))
    end
  else if (0 <? len envOverrides)%Z then
    ret (Some (errorString "stack env overrides require a Portainer server url and token"))
  else
    do_ emit (SDK_UpdateEdgeStack id file (IntToInt64Slice environmentGroupIds));
    match UpdateEdgeStack (cli c) id file (IntToInt64Slice environmentGroupIds) with
    | Some err => ret (Some (Errorf_w "failed to update edge stack: " err ""))
    | None => ret None
    end.

End Client.

Arguments ReadFailed {A} partial err.
Arguments ReadAll {A} text doc.
Arguments NewRequestFailed {A} err.
Arguments DoFailed {A} err.
Arguments Response {A} StatusCode Body.

(** ** The update-stack tool handler (package [mcp]) *)

Module MCP.

(** A Go [any] holding a decoded tool argument. *)
Inductive any : Type :=
| AnyNil
| AnyBool (b : bool)
| AnyFloat64 (literal : string)
| AnyString (s : string)
| AnySlice (items : list any)
| AnyMap (m : gmap string any).

Inductive CallToolResult : Type :=
| NewToolResultText (text : string)
| NewToolResultErrorFromErr (msg : string) (err : error).

(** The getters of [toolgen.ParameterParser] for one request; the
    package is not among the sources, so what they return is a
    parameter. *)
Record ParameterParser : Type := {
  GetInt : string → bool → error + Z;
  GetString : string → bool → error + string;
  GetArrayOfIntegers : string → bool → error + slice Z;
  GetArrayOfObjects : string → bool → error + slice any
}.

(** The client behind [s.cli], as far as this handler uses it. *)
Record StackClient : Type := {
  cli_UpdateStack : Z → string → slice Z → slice StackEnvVar → option error
}.

Inductive call : Type :=
| Call_UpdateStack (id : Z) (file : string) (environmentGroupIds : slice Z)
    (envOverrides : slice StackEnvVar).

Section Handler.

(** The verb [%v] on a tool argument. *)
Variable Sprint : any → string.

Definition mapIndex (m : gmap string any) (key : string) : any :=
  default AnyNil (m !! key).

(** The body of the loop of [parseStackEnvOverrides]. *)
Definition parseEntry (entry : any) : error + StackEnvVar :=
  match entry with
  | AnyMap entryMap =>
      match mapIndex entryMap "name" with
      | AnyString name =>
          if String.eqb name "" then
            inl (errorString ("invalid env name: " +:+ Sprint (mapIndex entryMap "name")))
          else
            match mapIndex entryMap "value" with
            | AnyString value => inr {| Name := name; Value := value |}
            | _ => inl (errorString ("invalid env value: "
                                     +:+ Sprint (mapIndex entryMap "value")))
            end
      | _ => inl (errorString ("invalid env name: " +:+ Sprint (mapIndex entryMap "name")))
      end
  | _ => inl (errorString ("invalid env override: " +:+ Sprint entry))
  end.

Fixpoint parseEntries (entries : list any) (result : list StackEnvVar)
  : error + list StackEnvVar :=
  match entries with
  | [] => inr result
  | entry :: rest =>
      match parseEntry entry with
      | inl err => inl err
      | inr v => parseEntries rest (result ++ [v])
      end
  end.

Definition parseStackEnvOverrides (entries : slice any) : error + slice StackEnvVar :=
  if (len entries =? 0)%Z then inr (Slice [])
  else
    match parseEntries (elems entries) [] with
    | inl err => inl err
    | inr result => inr (Slice result)
    end.

Variable client : StackClient.

(** The result of the handler and the calls it made to the client. *)
Definition HandleUpdateStack (parser : ParameterParser) : CallToolResult * list call :=
  match GetInt parser "id" true with
  | inl err => (NewToolResultErrorFromErr "invalid id parameter" err, [])
  | inr id =>
  match GetString parser "file" true with
  | inl err => (NewToolResultErrorFromErr "invalid file parameter" err, [])
  | inr file =>
  match GetArrayOfIntegers parser "environmentGroupIds" true with
  | inl err => (NewToolResultErrorFromErr "invalid environmentGroupIds parameter" err, [])
  | inr environmentGroupIds =>
  match GetArrayOfObjects parser "envOverrides" false with
  | inl err => (NewToolResultErrorFromErr "invalid envOverrides parameter" err, [])
  | inr envOverridesRaw =>
  match parseStackEnvOverrides envOverridesRaw with
  | inl err => (NewToolResultErrorFromErr "invalid envOverrides parameter" err, [])
  | inr envOverrides =>
      let calls := [Call_UpdateStack id file environmentGroupIds envOverrides] in
      match cli_UpdateStack client id file environmentGroupIds envOverrides with
      | Some err => (NewToolResultErrorFromErr "failed to update stack" err, calls)
      | None => (NewToolResultText "Stack updated successfully", calls)
      end
  end end end end end.

End Handler.

End MCP.

(** ** The other tool handlers (package [mcp]) *)

Module MCPTools.

(** The client behind [s.cli], as far as these handlers use it. *)
Record ToolClient : Type := {
  cli_GetStacks : error + slice Stack;
  cli_GetStackFile : Z → error + string;
  cli_GetStackEnvNames : Z → error + slice string;
  cli_CreateStack : string → string → slice Z → error + Z
}.

Inductive call : Type :=
| Call_GetStacks
| Call_GetStackFile (id : Z)
| Call_GetStackEnvNames (id : Z)
| Call_CreateStack (name file : string) (environmentGroupIds : slice Z).

Section Handlers.

(** [json.Marshal] of the stacks and of the names; the encoding of
    [models.Stack] is not part of the sources at hand. *)
Variable marshalStacks : slice Stack → error + string.
Variable marshalNames : slice string → error + string.

Variable client : ToolClient.

Definition HandleGetStacks : MCP.CallToolResult * list call :=
  match cli_GetStacks client with
  | inl err => (MCP.NewToolResultErrorFromErr "failed to get stacks" err, [Call_GetStacks])
  | inr stacks =>
      match marshalStacks stacks with
      | inl err =>
          (MCP.NewToolResultErrorFromErr "failed to marshal stacks" err, [Call_GetStacks])
      | inr data => (MCP.NewToolResultText data, [Call_GetStacks])
      end
  end.

Definition HandleGetStackFile (parser : MCP.ParameterParser)
  : MCP.CallToolResult * list call :=
  match MCP.GetInt parser "id" true with
  | inl err => (MCP.NewToolResultErrorFromErr "invalid id parameter" err, [])
  | inr id =>
      match cli_GetStackFile client id with
      | inl err =>
          (MCP.NewToolResultErrorFromErr "failed to get stack file" err,
           [Call_GetStackFile id])
      | inr stackFile => (MCP.NewToolResultText stackFile, [Call_GetStackFile id])
      end
  end.

Definition HandleGetStackEnvNames (parser : MCP.ParameterParser)
  : MCP.CallToolResult * list call :=
  match MCP.GetInt parser "id" true with
  | inl err => (MCP.NewToolResultErrorFromErr "invalid id parameter" err, [])
  | inr id =>
      match cli_GetStackEnvNames client id with
      | inl err =>
          (MCP.NewToolResultErrorFromErr "failed to get stack env names" err,
           [Call_GetStackEnvNames id])
      | inr names =>
          match marshalNames names with
          | inl err =>
              (MCP.NewToolResultErrorFromErr "failed to marshal env names" err,
               [Call_GetStackEnvNames id])
          | inr data => (MCP.NewToolResultText data, [Call_GetStackEnvNames id])
          end
      end
  end.

Definition HandleCreateStack (parser : MCP.ParameterParser)
  : MCP.CallToolResult * list call :=
  match MCP.GetString parser "name" true with
  | inl err => (MCP.NewToolResultErrorFromErr "invalid name parameter" err, [])
  | inr name =>
  match MCP.GetString parser "file" true with
  | inl err => (MCP.NewToolResultErrorFromErr "invalid file parameter" err, [])
  | inr file =>
  match MCP.GetArrayOfIntegers parser "environmentGroupIds" true with
  | inl err =>
      (MCP.NewToolResultErrorFromErr "invalid environmentGroupIds parameter" err, [])
  | inr environmentGroupIds =>
      let calls := [Call_CreateStack name file environmentGroupIds] in
      match cli_CreateStack client name file environmentGroupIds with
      | inl err => (MCP.NewToolResultErrorFromErr "error creating stack" err, calls)
      | inr id =>
          (MCP.NewToolResultText ("Stack created successfully with ID: "
                                  +:+ GoStrings.Itoa id), calls)
      end
  end end end.

End Handlers.

End MCPTools.

(** The client the server hands to the handlers is the façade; here it
    is the façade in one world, each call answering what the operation
    answers there. *)
Definition toolClient (nameKey valueKey : string) (net : Network)
    (formatRFC3339 : Z → string) (c : PortainerClient) : MCPTools.ToolClient :=
  {| MCPTools.cli_GetStacks := (run (GetStacks net formatRFC3339 c)).1;
     MCPTools.cli_GetStackFile := λ id, (run (GetStackFile net c id)).1;
     MCPTools.cli_GetStackEnvNames :=
       λ id, (run (GetStackEnvNames nameKey valueKey net c id)).1;
     MCPTools.cli_CreateStack :=
       λ name file environmentGroupIds,
         (run (CreateStack c name file environmentGroupIds)).1 |}.

(** ** The merge and the list of names, in the words of the specification *)

Module Spec.

(** The names of a list, each at its first occurrence. *)
Fixpoint firstSeen (names : list string) : list string :=
  match names with
  | [] => []
  | n :: rest => n :: filter (λ m, m ≠ n) (firstSeen rest)
  end.

(** The entries that carry a name. *)
Definition named (l : list StackEnvVar) : list StackEnvVar :=
  filter (λ e, Name e ≠ "") l.

(** The value of the last override of [name]; overrides without a name
    are ignored. *)
Fixpoint lastValue (overrides : list StackEnvVar) (name : string) : option string :=
  match overrides with
  | [] => None
  | o :: rest =>
      match lastValue rest name with
      | Some v => Some v
      | None => if decide (Name o = name ∧ name ≠ "") then Some (Value o) else None
      end
  end.

(** The override names in first-seen order. *)
Definition overrideOrder (overrides : list StackEnvVar) : list string :=
  firstSeen (Name <$> named overrides).

(** An existing entry, with its value overridden if its name is. *)
Definition substitute (overrides : list StackEnvVar) (e : StackEnvVar) : StackEnvVar :=
  match lastValue overrides (Name e) with
  | Some v => {| Name := Name e; Value := v |}
  | None => e
  end.

(** The override names that no existing entry has. *)
Definition newNames (existing overrides : list StackEnvVar) : list string :=
  filter (λ n, n ∉ Name <$> existing) (overrideOrder overrides).

Definition overrideEntry (overrides : list StackEnvVar) (n : string) : StackEnvVar :=
  {| Name := n; Value := default "" (lastValue overrides n) |}.

(** Section 4.4: no overrides give the existing list; otherwise the
    existing entries are walked in order, overridden where their name
    is, and the new override names follow, once each, in first-seen
    order. *)
Definition merge (existing overrides : list StackEnvVar) : list StackEnvVar :=
  match overrides with
  | [] => existing
  | _ =>
      (substitute overrides <$> existing)
      ++ (overrideEntry overrides <$> newNames existing overrides)
  end.

(** Section 4.5, GetEnvNames: the names that are not empty, in their
    order, each once. *)
Definition names (env : list StackEnvVar) : list string :=
  firstSeen (Name <$> named env).

End Spec.

(** ** The vocabulary of the statements *)

(** *** Strings *)

Definition is_ascii (c : ascii) : Prop := (N_of_ascii c < 128)%N.

Fixpoint all_ascii (s : string) : Prop :=
  match s with
  | EmptyString => True
  | String c r => is_ascii c ∧ all_ascii r
  end.

Definition starts_ascii (s : string) : Prop :=
  match s with
  | EmptyString => True
  | String c _ => is_ascii c
  end.

(** *** Merge *)

(** No entry of the list has a name. *)
Definition unnamed (l : list StackEnvVar) : Prop := Forall (λ o, Name o = "") l.

(** A name is marked in the Go map [seen]. *)
Definition marked (seen : gmap string bool) (k : string) : Prop :=
  default false (seen !! k) = true.

#[global] Instance marked_dec seen k : Decision (marked seen k).
Proof. unfold marked. apply _. Defined.

(** The value written for an existing entry, read from the Go map. *)
Definition overridden (values : gmap string string) (e : StackEnvVar) : StackEnvVar :=
  match values !! Name e with
  | Some v => {| Name := Name e; Value := v |}
  | None => e
  end.

(** The entry appended for a new override name. *)
Definition appended (values : gmap string string) (n : string) : StackEnvVar :=
  {| Name := n; Value := default "" (values !! n) |}.

(** *** Codec *)

(** Two results that succeed together, with the same value. *)
Definition same_result {A} (r1 r2 : error + A) : Prop :=
  match r1, r2 with
  | inr a, inr b => a = b
  | inl _, inl _ => True
  | _, _ => False
  end.

(** The same entry in the two Go types. *)
Definition toAlt (e : StackEnvVar) : stackEnvEntryAlt :=
  {| AltName := Name e; AltValue := Value e |}.

Definition fromAlt (entry : stackEnvEntryAlt) : StackEnvVar :=
  {| Name := AltName entry; Value := AltValue entry |}.

(** Some entry carries a name or a value. *)
Definition has_values (l : list StackEnvVar) : Prop :=
  ∃ e, e ∈ l ∧ (Name e ≠ "" ∨ Value e ≠ "").

(** What the second half of [parseStackEnv] answers when the alternate
    decode gives [alt]. *)
Definition altResult (alt : slice stackEnvEntryAlt) : slice StackEnvVar :=
  match elems alt with
  | [] => Nil
  | _ => Slice (fromAlt <$> elems alt)
  end.

(** *** Traces and tool arguments *)

(** A trace without calls to the edge SDK. *)
Definition http_only (tr : list event) : Prop := Forall (λ e, isEdgeCall e = false) tr.

(** An object with a string ["name"] that is not empty and a string
    ["value"]. *)
Definition well_formed (entry : MCP.any) : Prop :=
  ∃ m name value,
    entry = MCP.AnyMap m
    ∧ m !! "name" = Some (MCP.AnyString name) ∧ name ≠ ""
    ∧ m !! "value" = Some (MCP.AnyString value).

(** The override such an object stands for. *)
Definition stands_for (entry : MCP.any) (v : StackEnvVar) : Prop :=
  ∃ m, entry = MCP.AnyMap m
       ∧ m !! "name" = Some (MCP.AnyString (Name v))
       ∧ m !! "value" = Some (MCP.AnyString (Value v)).

(** ** The servers of the tests *)

(** An edge SDK with two stacks, whose update succeeds. *)
Definition testAPI : PortainerAPI :=
  {| ListEdgeStacks :=
       inr (Slice [ {| EdgeID := 1; EdgeName := "stack1"; EdgeCreationDate := 0;
                       EdgeGroups := Slice [1; 2] |};
                    {| EdgeID := 2; EdgeName := "stack2"; EdgeCreationDate := 0;
                       EdgeGroups := Slice [3] |} ]);
     GetEdgeStackFile := λ _, inr "version: '3'";
     CreateEdgeStack := λ _ _ _, inr 1;
     UpdateEdgeStack := λ _ _ _, None |}.

Definition testClient (url tok : string) : PortainerClient :=
  {| cli := testAPI; serverURL := url; token := tok; skipTLSVerify := false |}.

(** A server with one regular stack, whose update answers [putStatus]
    with the text [putBody]. *)
Definition testServer (getStatus putStatus : Z) (putBody : string) : Network :=
  {| stacksEndpoint := λ _,
       Response 200
         (ReadAll "" (inr (Slice [ {| RegularID := 10; RegularName := "regular-stack";
                                      Type_ := 2; EndpointId := 3; CreationDate := 0;
                                      Status := 1 |} ])));
     stackFileEndpoint := λ _, Response 200 (ReadAll "" (inr "version: '3'"));
     stackDetailsEndpoint := λ _,
       Response getStatus
         (ReadAll "not found"
            (inr {| details_EndpointId := 21;
                    details_Env :=
                      RawJSON (JArray [JObject [("Name", JString "DYNU_TOKEN");
                                                ("Value", JString "token")]]) |}));
     stackUpdateEndpoint := λ _ _, Response putStatus (ReadAll putBody (inr ())) |}.

(** A request for stack 42 with the given [envOverrides], and a client
    whose update succeeds. *)
Definition testParser (envOverrides : slice MCP.any) : MCP.ParameterParser :=
  {| MCP.GetInt := λ _ _, inr 42;
     MCP.GetString := λ _ _, inr "version: '3'";
     MCP.GetArrayOfIntegers := λ _ _, inr (Slice [1]);
     MCP.GetArrayOfObjects := λ _ _, inr envOverrides |}.

Definition testStackClient : MCP.StackClient :=
  {| MCP.cli_UpdateStack := λ _ _ _ _, None |}.

(** ** Further vocabulary *)

(** The entries with a name that no override has. *)
Definition untouched (overrides : list StackEnvVar) (l : list StackEnvVar)
  : list StackEnvVar :=
  filter (λ e, Name e ≠ "" ∧ Spec.lastValue overrides (Name e) = None) l.

(** A decimal digit or the minus sign. *)
Definition numeric_char (c : ascii) : Prop :=
  c ∈ ["0"; "1"; "2"; "3"; "4"; "5"; "6"; "7"; "8"; "9"; "-"]%char.

Fixpoint numeric (s : string) : Prop :=
  match s with
  | EmptyString => True
  | String c r => numeric_char c ∧ numeric r
  end.

(** The regular path of [UpdateStack] alone: the details are fetched and
    the update is sent with the merged environment.  The answer is the
    failure of the first step that fails, with the words [UpdateStack]
    puts before it. *)
Definition regularPath (nameKey valueKey : string) (net : Network) (c : PortainerClient)
    (id : Z) (file : string) (envOverrides : slice StackEnvVar)
  : io (option (string * error)) :=
  bind (getRegularStackDetailsHTTP nameKey valueKey net c id) (λ r,
    match r with
    | inl err => ret (Some ("failed to get regular stack details: ", err))
    | inr (endpointId, env) =>
        bind (updateRegularStackHTTP net c id endpointId file
                (mergeEnvOverrides env envOverrides)) (λ e,
          ret match e with
              | None => None
              | Some err => Some ("failed to update regular stack: ", err)
              end)
    end).

(** The request and the payload of the update of a regular stack. *)
Definition updateRequest (c : PortainerClient) (id endpointId : Z) : Request :=
  newRequest c "PUT" (apiBase c +:+ "/api/stacks/" +:+ GoStrings.Itoa id
                      +:+ "?endpointId=" +:+ GoStrings.Itoa endpointId).

Definition updateBody (file : string) (env : slice StackEnvVar) : updatePayload :=
  {| StackFileContent := file; Prune := false; PullImage := false; Env := env |}.

(** The events of a trace that are calls of the edge SDK. *)
Definition edge_only (tr : list event) : Prop := Forall (λ e, isEdgeCall e = true) tr.

(** Each helper of the REST surface adds at most one exchange to the
    trace. *)
Definition one_exchange (tr tr' : list event) (req : Request) (payload : option updatePayload)
  : Prop :=
  tr' = tr ∨ tr' = tr ++ [HTTP req payload].

(** What [UpdateStack] does after the regular path. *)
Definition afterRegularPath (c : PortainerClient) (id : Z) (file : string)
    (environmentGroupIds : slice Z) (envOverrides : slice StackEnvVar)
    (outcome : option (string * error)) (tr : list event) : option error * list event :=
  match outcome with
  | None => (None, tr)
  | Some (context, err) =>
      if shouldFallbackToEdge err then
        updateEdgeFallback c id file environmentGroupIds envOverrides context err tr
      else (Some (Errorf_w context err ""), tr)
  end.

(** The server URL has a scheme, as the client tests it. *)
Definition has_scheme (s : string) : bool :=
  GoStrings.HasPrefix s "http://" || GoStrings.HasPrefix s "https://".

(** The text ends with a slash. *)
Definition ends_with_slash (s : string) : Prop := ∃ p, s = p +:+ "/".

(** No byte of the text is an ASCII byte. *)
Fixpoint no_ascii (s : string) : Prop :=
  match s with
  | EmptyString => True
  | String c r => ¬ is_ascii c ∧ no_ascii r
  end.

(** A server whose stacks all have the environment [env]. *)
Definition testServerEnv (env : json) : Network :=
  {| stacksEndpoint := stacksEndpoint (testServer 200 200 "");
     stackFileEndpoint := stackFileEndpoint (testServer 200 200 "");
     stackDetailsEndpoint := λ _,
       Response 200
         (ReadAll "" (inr {| details_EndpointId := 21; details_Env := RawJSON env |}));
     stackUpdateEndpoint := stackUpdateEndpoint (testServer 200 200 "") |}.

(** * Properties *)

#[local] Set Warnings "-clear-no-such-hyp".

(** ** Strings *)

Module StringFacts.
Import GoStrings.

Lemma append_cons c r s : String c r +:+ s = String c (r +:+ s).
Proof. reflexivity. Qed.

Lemma append_nil s : "" +:+ s = s.
Proof. reflexivity. Qed.

Lemma append_nil_r s : s +:+ "" = s.
Proof. induction s as [|c r IH]; [done|]. by rewrite append_cons, IH. Qed.

Lemma eqb_const_not_ascii (c k : ascii) :
  is_ascii c → ¬ is_ascii k → Ascii.eqb c k = false.
Proof.
  intros Hc Hk. destruct (Ascii.eqb c k) eqn:E; [|done].
  apply Ascii.eqb_eq in E. by subst.
Qed.

Lemma not_ascii_196 : ¬ is_ascii "196". Proof. by vm_compute. Qed.
Lemma not_ascii_176 : ¬ is_ascii "176". Proof. by vm_compute. Qed.
Lemma not_ascii_226 : ¬ is_ascii "226". Proof. by vm_compute. Qed.
Lemma not_ascii_132 : ¬ is_ascii "132". Proof. by vm_compute. Qed.
Lemma not_ascii_170 : ¬ is_ascii "170". Proof. by vm_compute. Qed.

Lemma is_dotted_I_ascii_l c c1 : is_ascii c → is_dotted_I c c1 = false.
Proof.
  intros H. unfold is_dotted_I.
  by rewrite (eqb_const_not_ascii _ _ H not_ascii_196).
Qed.

Lemma is_dotted_I_ascii_r c c1 : is_ascii c1 → is_dotted_I c c1 = false.
Proof.
  intros H. unfold is_dotted_I.
  rewrite (eqb_const_not_ascii _ _ H not_ascii_176). apply andb_false_r.
Qed.

Lemma is_kelvin_ascii_1 c c1 c2 : is_ascii c → is_kelvin c c1 c2 = false.
Proof.
  intros H. unfold is_kelvin.
  by rewrite (eqb_const_not_ascii _ _ H not_ascii_226).
Qed.

Lemma is_kelvin_ascii_2 c c1 c2 : is_ascii c1 → is_kelvin c c1 c2 = false.
Proof.
  intros H. unfold is_kelvin.
  rewrite (eqb_const_not_ascii _ _ H not_ascii_132).
  by rewrite andb_false_r.
Qed.

Lemma is_kelvin_ascii_3 c c1 c2 : is_ascii c2 → is_kelvin c c1 c2 = false.
Proof.
  intros H. unfold is_kelvin.
  rewrite (eqb_const_not_ascii _ _ H not_ascii_170). apply andb_false_r.
Qed.

Lemma ascii_lower_is_ascii c : is_ascii (ascii_lower c) → is_ascii c.
Proof.
  unfold ascii_lower, is_ascii.
  destruct ((65 <=? N_of_ascii c)%N && (N_of_ascii c <=? 90)%N) eqn:E; [|done].
  intros _. apply andb_true_iff in E as [_ E]. apply N.leb_le in E. lia.
Qed.

Lemma foldName_all_ascii s : all_ascii (Json.foldName s) → all_ascii s.
Proof.
  induction s as [|c r IH]; simpl; [done|].
  intros [Hc Hr]. split; [by apply ascii_lower_is_ascii | by apply IH].
Qed.

Lemma ToLower_1_nil : ToLower "" = "".
Proof. reflexivity. Qed.

Lemma ToLower_1 c : ToLower (String c "") = String (ascii_lower c) "".
Proof. reflexivity. Qed.

Lemma ToLower_2 c c1 :
  ToLower (String c (String c1 "")) =
  if is_dotted_I c c1 then String "i" ""
  else String (ascii_lower c) (ToLower (String c1 "")).
Proof. reflexivity. Qed.

Lemma ToLower_3 c c1 c2 r2 :
  ToLower (String c (String c1 (String c2 r2))) =
  if is_dotted_I c c1 then String "i" (ToLower (String c2 r2))
  else if is_kelvin c c1 c2 then String "k" (ToLower r2)
       else String (ascii_lower c) (ToLower (String c1 (String c2 r2))).
Proof. reflexivity. Qed.

(** On an ASCII byte [ToLower] works byte by byte. *)
Lemma ToLower_cons_ascii c r :
  is_ascii c → ToLower (String c r) = String (ascii_lower c) (ToLower r).
Proof.
  intros Hc. destruct r as [|c1 [|c2 r2]]; [done|..].
  - by rewrite ToLower_2, is_dotted_I_ascii_l.
  - by rewrite ToLower_3, is_dotted_I_ascii_l, is_kelvin_ascii_1.
Qed.

Lemma ToLower_all_ascii m post :
  all_ascii m → ToLower (m +:+ post) = Json.foldName m +:+ ToLower post.
Proof.
  induction m as [|c r IH]; [done|].
  intros [Hc Hr]. rewrite append_cons. cbn [Json.foldName].
  rewrite ToLower_cons_ascii by done. by rewrite IH, append_cons.
Qed.

(** A rune is never split by a following ASCII byte. *)
Lemma ToLower_app_fuel n : ∀ pre s,
  (String.length pre ≤ n)%nat → starts_ascii s →
  ToLower (pre +:+ s) = ToLower pre +:+ ToLower s.
Proof.
  induction n as [|n IH]; intros pre s Hn Hs.
  { destruct pre; [done | simpl in Hn; lia]. }
  destruct s as [|a s1].
  { by rewrite ToLower_1_nil, !append_nil_r. }
  simpl in Hs.
  destruct pre as [|c [|c1 [|c2 r2]]]; [done|..].
  - (* one byte *)
    rewrite append_cons, append_nil, ToLower_1, append_cons, append_nil.
    destruct s1 as [|a1 s2].
    + by rewrite ToLower_2, is_dotted_I_ascii_r.
    + by rewrite ToLower_3, is_dotted_I_ascii_r, is_kelvin_ascii_2.
  - (* two bytes *)
    rewrite !append_cons, append_nil, ToLower_3, ToLower_2.
    destruct (is_dotted_I c c1) eqn:E; [done|].
    rewrite is_kelvin_ascii_3 by done.
    rewrite append_cons. f_equal.
    apply (IH (String c1 "") (String a s1)); [simpl in *; lia | done].
  - (* three bytes or more *)
    rewrite !append_cons, !ToLower_3.
    destruct (is_dotted_I c c1) eqn:E.
    + rewrite append_cons, <- (append_cons c2). f_equal.
      apply (IH (String c2 r2) (String a s1)); [simpl in *; lia | done].
    + destruct (is_kelvin c c1 c2) eqn:K.
      * rewrite append_cons. f_equal. apply IH; [simpl in *; lia | done].
      * rewrite append_cons, <- !(append_cons _ _ (String a s1)). f_equal.
        apply (IH (String c1 (String c2 r2)) (String a s1)); [simpl in *; lia | done].
Qed.

Lemma ToLower_app pre s :
  starts_ascii s → ToLower (pre +:+ s) = ToLower pre +:+ ToLower s.
Proof. by apply (ToLower_app_fuel (String.length pre)). Qed.

Lemma prefix_app sub b : String.prefix sub (sub +:+ b) = true.
Proof.
  induction sub as [|c r IH]; [by destruct b|].
  rewrite append_cons. simpl. by destruct (ascii_dec c c).
Qed.

Lemma Contains_prefix s sub : String.prefix sub s = true → Contains s sub = true.
Proof. destruct s; cbn [Contains]; by intros ->. Qed.

Lemma Contains_app a sub b : Contains (a +:+ sub +:+ b) sub = true.
Proof.
  induction a as [|c r IH].
  - rewrite append_nil. apply Contains_prefix, prefix_app.
  - rewrite append_cons. cbn [Contains]. rewrite IH. apply orb_true_r.
Qed.

(** A marker written in any mix of ASCII cases is found. *)
Lemma Contains_ToLower_fold pre m post :
  all_ascii (Json.foldName m) →
  Contains (ToLower (pre +:+ m +:+ post)) (Json.foldName m) = true.
Proof.
  intros Hm%foldName_all_ascii.
  destruct m as [|c r].
  { simpl. by destruct (ToLower _). }
  rewrite ToLower_app by (destruct Hm; done).
  rewrite ToLower_all_ascii by done.
  apply Contains_app.
Qed.

Lemma Contains_cons_no_prefix c r sub :
  String.prefix sub (String c r) = false →
  Contains (String c r) sub = Contains r sub.
Proof. cbn [Contains]. by intros ->. Qed.

End StringFacts.

(** ** Fallback classifier *)

Section Classifier.
Import StringFacts.

Lemma isEdgeStackErrorMessage_fold pre m post :
  Json.foldName m = "edge stack" ∨ Json.foldName m = "edgestackupdate" →
  isEdgeStackErrorMessage (pre +:+ m +:+ post) = true.
Proof.
  intros Hm. unfold isEdgeStackErrorMessage. apply orb_true_iff.
  destruct Hm as [Hm|Hm]; [right|left]; rewrite <- Hm;
    apply Contains_ToLower_fold; rewrite Hm; vm_compute; tauto.
Qed.

Lemma Contains_status_prefix lower sub :
  sub = "edgestackupdate" ∨ sub = "edge stack" →
  GoStrings.Contains ("api returned status 403: " +:+ lower) sub
  = GoStrings.Contains lower sub.
Proof.
  intros [->| ->];
    repeat (rewrite append_cons, Contains_cons_no_prefix by reflexivity);
    by rewrite append_nil.
Qed.

(** The text of a 403 status error mentions the edge subsystem only if
    its body does. *)
Lemma isEdgeStackErrorMessage_403 body :
  isEdgeStackErrorMessage (Error (apiStatusError 403 body)) = isEdgeStackErrorMessage body.
Proof.
  unfold Error. destruct (String.eqb body "") eqn:E.
  { apply String.eqb_eq in E. subst. by vm_compute. }
  change ("api returned status " +:+ GoStrings.Itoa 403 +:+ ": " +:+ body)
    with ("api returned status 403: " +:+ body).
  unfold isEdgeStackErrorMessage.
  rewrite (ToLower_all_ascii "api returned status 403: ") by (vm_compute; tauto).
  change (Json.foldName "api returned status 403: ") with "api returned status 403: ".
  by rewrite !Contains_status_prefix by auto.
Qed.

(** C5.  [shouldFallbackToEdge] holds exactly for an error that is, or
    wraps, a status error with code 404, or whose status body or whose
    text holds one of the two markers in any letter case; so it holds
    for every 404 status error and for every status error whose body
    holds ["edge stack"] written in any mix of cases, and it fails for a
    403 status error whose body holds no marker. *)
Theorem shouldFallbackToEdge_spec :
  (∀ err, shouldFallbackToEdge err = true ↔
     (∃ statusCode body, errors_As err = Some (statusCode, body)
        ∧ (statusCode = StatusNotFound ∨ isEdgeStackErrorMessage body = true))
     ∨ isEdgeStackErrorMessage (Error err) = true)
  ∧ (∀ body, shouldFallbackToEdge (apiStatusError 404 body) = true)
  ∧ (∀ statusCode pre m post,
       Json.foldName m = "edge stack" →
       shouldFallbackToEdge (apiStatusError statusCode (pre +:+ m +:+ post)) = true)
  ∧ (∀ body, isEdgeStackErrorMessage body = false →
       shouldFallbackToEdge (apiStatusError 403 body) = false).
Proof.
  split; [|split; [|split]].
  - intros err. unfold shouldFallbackToEdge.
    destruct (errors_As err) as [[statusCode body]|] eqn:EAs.
    + destruct (Z.eqb_spec statusCode StatusNotFound) as [->|Hne].
      { split; [|done]. intros _. left. eauto. }
      destruct (isEdgeStackErrorMessage body) eqn:Eb.
      { split; [|done]. intros _. left. eauto. }
      split; [by right|].
      intros [(sc & b & [= <- <-] & [?|?])|?]; congruence.
    + split; [by right|]. by intros [(? & ? & ? & _)|?].
  - done.
  - intros statusCode pre m post Hm. unfold shouldFallbackToEdge. cbn [errors_As].
    rewrite isEdgeStackErrorMessage_fold by auto.
    by destruct (statusCode =? StatusNotFound)%Z.
  - intros body Hb. unfold shouldFallbackToEdge. cbn [errors_As].
    rewrite isEdgeStackErrorMessage_403, Hb. done.
Qed.

Lemma shouldFallbackToEdge_spec_witness :
  shouldFallbackToEdge (apiStatusError 500 ("this is an " +:+ "Edge STACK" +:+ " id")) = true
  ∧ shouldFallbackToEdge (apiStatusError 403 "access denied") = false.
Proof.
  destruct shouldFallbackToEdge_spec as (_ & _ & Hmarker & H403).
  split; [apply Hmarker | apply H403]; vm_compute; reflexivity.
Defined.

End Classifier.

(** ** Environment merge *)

Section ListFacts.
Import Spec.

Lemma filter_all {A} (P : A → Prop) `{!∀ x, Decision (P x)} (l : list A) :
  Forall P l → filter P l = l.
Proof.
  induction 1 as [|x l Hx _ IH]; [done|].
  by rewrite filter_cons_True, IH.
Qed.

Lemma filter_none {A} (P : A → Prop) `{!∀ x, Decision (P x)} (l : list A) :
  Forall (λ x, ¬ P x) l → filter P l = [].
Proof.
  induction 1 as [|x l Hx _ IH]; [done|].
  by rewrite filter_cons_False.
Qed.

Lemma filter_ext_in {A} (P Q : A → Prop)
    `{!∀ x, Decision (P x), !∀ x, Decision (Q x)} (l : list A) :
  (∀ x, x ∈ l → P x ↔ Q x) → filter P l = filter Q l.
Proof.
  induction l as [|x l IH]; intros Hext; [done|].
  rewrite !filter_cons, IH by (intros y Hy; apply Hext; by right).
  apply decide_ext, Hext. by left.
Qed.

Lemma firstSeen_filter (P : string → Prop) `{!∀ x, Decision (P x)} l :
  firstSeen (filter P l) = filter P (firstSeen l).
Proof.
  induction l as [|n r IH]; [done|].
  cbn [firstSeen]. destruct (decide (P n)) as [Hn|Hn].
  - rewrite !filter_cons_True by done. cbn [firstSeen]. rewrite IH.
    f_equal. rewrite !list_filter_filter. apply list_filter_iff. naive_solver.
  - rewrite !filter_cons_False by done. rewrite IH.
    symmetry. apply list_filter_filter_l. naive_solver.
Qed.

Lemma elem_of_firstSeen l x : x ∈ firstSeen l ↔ x ∈ l.
Proof.
  induction l as [|n r IH]; [done|].
  cbn [firstSeen]. rewrite !elem_of_cons, list_elem_of_filter, IH.
  destruct (decide (x = n)); naive_solver.
Qed.

Lemma NoDup_firstSeen l : NoDup (firstSeen l).
Proof.
  induction l as [|n r IH]; [constructor|].
  cbn [firstSeen]. apply NoDup_cons. split.
  - rewrite list_elem_of_filter. naive_solver.
  - by apply NoDup_filter.
Qed.

Lemma firstSeen_NoDup l : NoDup l → firstSeen l = l.
Proof.
  induction 1 as [|n r Hn _ IH]; [done|].
  cbn [firstSeen]. rewrite IH. f_equal.
  apply filter_all, Forall_forall. intros x Hx ->. done.
Qed.

Lemma firstSeen_idemp l : firstSeen (firstSeen l) = firstSeen l.
Proof. apply firstSeen_NoDup, NoDup_firstSeen. Qed.

Lemma lastValue_empty_name overrides : lastValue overrides "" = None.
Proof.
  induction overrides as [|o r IH]; [done|].
  cbn [lastValue]. rewrite IH. by rewrite decide_False by naive_solver.
Qed.

Lemma lastValue_is_Some overrides k :
  is_Some (lastValue overrides k) ↔ k ≠ "" ∧ k ∈ Name <$> overrides.
Proof.
  induction overrides as [|o r IH].
  { cbn. rewrite is_Some_alt. split; [done|]. intros [_ H]. by apply elem_of_nil in H. }
  cbn [lastValue]. rewrite fmap_cons, elem_of_cons.
  destruct (lastValue r k) as [v|] eqn:E.
  - split; [|by eauto]. intros _.
    destruct (proj1 IH) as [? ?]; [by eauto|]. auto.
  - assert (¬ (k ≠ "" ∧ k ∈ Name <$> r)) as Hr.
    { intros H. apply IH in H. by destruct H. }
    destruct (decide (Name o = k ∧ k ≠ "")) as [[<- ?]|Hn].
    + split; [|by eauto]. auto.
    + split; [by intros [? ?]|]. intros [? [->|?]]; [|tauto].
      destruct Hn. auto.
Qed.

Lemma lastValue_unnamed overrides :
  Forall (λ o, Name o = "") overrides ↔ ∀ k, lastValue overrides k = None.
Proof.
  split.
  - intros Hall k. apply eq_None_not_Some. rewrite lastValue_is_Some.
    intros [Hk (o & -> & Ho)%list_elem_of_fmap].
    rewrite Forall_forall in Hall. auto.
  - intros Hnone. apply Forall_forall. intros o Ho.
    destruct (decide (Name o = "")) as [|Hne]; [done|].
    assert (is_Some (lastValue overrides (Name o))) as [v Hv].
    { apply lastValue_is_Some. split; [done|]. by apply list_elem_of_fmap_2. }
    by rewrite Hnone in Hv.
Qed.

Lemma named_cons_unnamed e l : Name e = "" → named (e :: l) = named l.
Proof. intros H. unfold named. by rewrite filter_cons_False by naive_solver. Qed.

Lemma named_cons_named e l : Name e ≠ "" → named (e :: l) = e :: named l.
Proof. intros H. unfold named. by rewrite filter_cons_True. Qed.

Lemma named_unnamed l : Forall (λ o, Name o = "") l → named l = [].
Proof.
  intros H. apply filter_none. eapply Forall_impl; [done|]. naive_solver.
Qed.

Lemma named_all l : Forall (λ e, Name e ≠ "") l → named l = l.
Proof. apply filter_all. Qed.

Lemma elem_of_named_names l k : k ∈ Name <$> named l ↔ k ≠ "" ∧ k ∈ Name <$> l.
Proof.
  unfold named. rewrite !list_elem_of_fmap. split.
  - intros (e & -> & [? ?]%list_elem_of_filter). eauto.
  - intros (Hk & e & -> & He). exists e. split; [done|].
    by apply list_elem_of_filter.
Qed.

End ListFacts.

Section MergeLoops.
Import Spec.

Lemma marked_empty k : ¬ marked ∅ k.
Proof. unfold marked. by rewrite lookup_empty. Qed.

Lemma marked_insert seen n k : marked (<[n:=true]> seen) k ↔ k = n ∨ marked seen k.
Proof.
  unfold marked. destruct (decide (n = k)) as [->|Hne].
  - rewrite lookup_insert_eq. naive_solver.
  - rewrite lookup_insert_ne by done. naive_solver.
Qed.

Lemma not_marked seen k : default false (seen !! k) = false ↔ ¬ marked seen k.
Proof. unfold marked. destruct (default false (seen !! k)); naive_solver. Qed.

Lemma eqb_empty_true n : String.eqb n "" = true ↔ n = "".
Proof. apply String.eqb_eq. Qed.

Lemma eqb_empty_false n : String.eqb n "" = false ↔ n ≠ "".
Proof. apply String.eqb_neq. Qed.

(** First loop: the map holds the last value of every override name. *)
Lemma collectOverride_values overrides : ∀ values order k,
  (foldl collectOverride (values, order) overrides).1 !! k
  = match lastValue overrides k with
    | Some v => Some v
    | None => values !! k
    end.
Proof.
  induction overrides as [|o r IH]; intros values order k; [done|].
  cbn [foldl lastValue]. unfold collectOverride at 2.
  destruct (String.eqb (Name o) "") eqn:E.
  - apply eqb_empty_true in E. rewrite IH.
    destruct (lastValue r k); [done|].
    by rewrite decide_False by naive_solver.
  - apply eqb_empty_false in E. rewrite IH.
    destruct (lastValue r k); [done|].
    destruct (decide (Name o = k)) as [<-|Hne].
    + by rewrite decide_True, lookup_insert_eq by done.
    + by rewrite decide_False, lookup_insert_ne by naive_solver.
Qed.

(** First loop: the names are recorded where they are first seen. *)
Lemma collectOverride_order overrides : ∀ values order,
  (foldl collectOverride (values, order) overrides).2
  = order ++ filter (λ k, values !! k = None) (overrideOrder overrides).
Proof.
  unfold overrideOrder.
  induction overrides as [|o r IH]; intros values order.
  { cbn. by rewrite app_nil_r. }
  cbn [foldl]. unfold collectOverride at 2.
  destruct (String.eqb (Name o) "") eqn:E.
  - apply eqb_empty_true in E. rewrite IH.
    by rewrite named_cons_unnamed.
  - apply eqb_empty_false in E. rewrite IH.
    rewrite named_cons_named by done.
    rewrite fmap_cons. cbn [firstSeen].
    assert (filter (λ k, <[Name o:=Value o]> values !! k = None)
              (firstSeen (Name <$> named r))
            = filter (λ k, values !! k = None)
                (filter (λ m, m ≠ Name o) (firstSeen (Name <$> named r)))) as ->.
    { rewrite list_filter_filter. apply list_filter_iff. intros k.
      rewrite lookup_insert_None. naive_solver. }
    destruct (values !! Name o) eqn:Ev.
    + by rewrite filter_cons_False by (rewrite Ev; done).
    + rewrite filter_cons_True by done. by rewrite <- app_assoc.
Qed.

Lemma mergeCurrent_step values merged seen current :
  mergeCurrent values (merged, seen) current
  = if String.eqb (Name current) "" then (merged, seen)
    else (merged ++ [overridden values current], <[Name current := true]> seen).
Proof.
  unfold mergeCurrent, overridden.
  destruct (String.eqb (Name current) ""); [done|].
  by destruct (values !! Name current).
Qed.

(** Second loop: the named entries, in order, each overridden or kept. *)
Lemma mergeCurrent_merged values existing : ∀ merged seen,
  (foldl (mergeCurrent values) (merged, seen) existing).1
  = merged ++ (overridden values <$> named existing).
Proof.
  induction existing as [|e r IH]; intros merged seen.
  { cbn. by rewrite app_nil_r. }
  cbn [foldl]. rewrite mergeCurrent_step.
  destruct (String.eqb (Name e) "") eqn:E.
  - apply eqb_empty_true in E. rewrite IH.
    by rewrite named_cons_unnamed.
  - apply eqb_empty_false in E. rewrite IH.
    rewrite named_cons_named by done.
    by rewrite fmap_cons, <- app_assoc.
Qed.

(** Second loop: exactly their names get marked. *)
Lemma mergeCurrent_seen values existing : ∀ merged seen k,
  marked (foldl (mergeCurrent values) (merged, seen) existing).2 k
  ↔ k ∈ Name <$> named existing ∨ marked seen k.
Proof.
  induction existing as [|e r IH]; intros merged seen k.
  { cbn. rewrite elem_of_nil. naive_solver. }
  cbn [foldl]. rewrite mergeCurrent_step.
  destruct (String.eqb (Name e) "") eqn:E.
  - apply eqb_empty_true in E. rewrite IH.
    by rewrite named_cons_unnamed.
  - apply eqb_empty_false in E. rewrite IH.
    rewrite named_cons_named by done.
    rewrite fmap_cons, elem_of_cons, marked_insert. naive_solver.
Qed.

(** Third loop: the names not yet marked are appended, once each. *)
Lemma appendOverride_merged values order : ∀ merged seen,
  (foldl (appendOverride values) (merged, seen) order).1
  = merged ++ (appended values <$> filter (λ n, ¬ marked seen n) (firstSeen order)).
Proof.
  induction order as [|n r IH]; intros merged seen.
  { cbn. by rewrite app_nil_r. }
  cbn [foldl firstSeen]. unfold appendOverride at 2.
  destruct (default false (seen !! n)) eqn:E.
  - rewrite IH. rewrite filter_cons_False by (unfold marked; naive_solver).
    do 2 f_equal. symmetry. apply list_filter_filter_l.
    intros x Hx ->. by apply Hx.
  - apply not_marked in E. rewrite IH.
    rewrite filter_cons_True by done.
    rewrite fmap_cons, <- app_assoc. cbn [app]. do 3 f_equal.
    rewrite list_filter_filter. apply list_filter_iff. intros k.
    rewrite marked_insert. naive_solver.
Qed.

End MergeLoops.

Section Merge.
Import Spec.

Lemma len_zero {A} (s : slice A) : (len s =? 0)%Z = true ↔ elems s = [].
Proof.
  unfold len. rewrite Z.eqb_eq. destruct (elems s); cbn; [done|].
  split; [lia|done].
Qed.

Lemma len_pos {A} (s : slice A) : (0 <? len s)%Z = true ↔ elems s ≠ [].
Proof.
  unfold len. rewrite Z.ltb_lt. destruct (elems s); cbn; [|split; [done|lia]].
  split; [lia|done].
Qed.

Lemma newNames_named existing overrides :
  newNames (named existing) overrides = newNames existing overrides.
Proof.
  unfold newNames, overrideOrder. apply filter_ext_in. intros n.
  rewrite elem_of_firstSeen, !elem_of_named_names. naive_solver.
Qed.

Lemma newNames_unnamed existing overrides : unnamed overrides → newNames existing overrides = [].
Proof.
  intros H. unfold newNames, overrideOrder. by rewrite named_unnamed.
Qed.

Lemma merge_unnamed existing overrides :
  unnamed overrides → merge existing overrides = existing.
Proof.
  intros H. unfold merge. destruct overrides as [|o r]; [done|].
  rewrite newNames_unnamed by done. rewrite app_nil_r.
  rewrite <- (list_fmap_id existing) at 2. apply list_fmap_ext.
  intros _ e _. unfold substitute.
  by rewrite (proj1 (lastValue_unnamed _) H).
Qed.

(** What the three loops compute, when some override has a name. *)
Lemma mergeEnvOverrides_named existing overrides :
  ¬ unnamed (elems overrides) →
  mergeEnvOverrides existing overrides
  = Slice (merge (named (elems existing)) (elems overrides)).
Proof.
  intros Hnamed. unfold mergeEnvOverrides.
  destruct (len overrides =? 0)%Z eqn:Elen.
  { apply len_zero in Elen. destruct Hnamed. rewrite Elen. constructor. }
  pose proof (collectOverride_values (elems overrides) ∅ []) as Hvalues.
  pose proof (collectOverride_order (elems overrides) ∅ []) as Horder.
  destruct (foldl collectOverride (∅, []) (elems overrides)) as [values order].
  cbn [fst snd] in Hvalues, Horder.
  assert (∀ k, values !! k = lastValue (elems overrides) k) as Hlookup.
  { intros k. rewrite Hvalues, lookup_empty. by destruct (lastValue _ k). }
  assert (order = overrideOrder (elems overrides)) as ->.
  { rewrite Horder. cbn [app]. apply filter_all, Forall_forall.
    intros k _. apply lookup_empty. }
  clear Hvalues Horder.
  destruct (Z.of_nat (size values) =? 0)%Z eqn:Esize.
  { destruct Hnamed. apply lastValue_unnamed. intros k. rewrite <- Hlookup.
    apply Z.eqb_eq in Esize.
    assert (size values = 0%nat) as ->%map_size_empty_iff by lia.
    apply lookup_empty. }
  pose proof (mergeCurrent_merged values (elems existing) [] ∅) as Hmerged.
  pose proof (mergeCurrent_seen values (elems existing) [] ∅) as Hseen.
  destruct (foldl (mergeCurrent values) ([], ∅) (elems existing)) as [merged seen].
  cbn [fst snd app] in Hmerged, Hseen. subst merged.
  pose proof (appendOverride_merged values (overrideOrder (elems overrides))
                (overridden values <$> named (elems existing)) seen) as Hfinal.
  destruct (foldl (appendOverride values) _ _) as [merged seen'].
  cbn [fst] in Hfinal. subst merged. f_equal.
  unfold merge. destruct (elems overrides) as [|o r] eqn:Eo.
  { destruct Hnamed. constructor. }
  rewrite <- Eo in *. f_equal.
  - apply list_fmap_ext. intros _ e _. unfold overridden, substitute.
    by rewrite Hlookup.
  - unfold overrideOrder at 1. rewrite firstSeen_idemp.
    fold (overrideOrder (elems overrides)). unfold newNames.
    assert (filter (λ n, ¬ marked seen n) (overrideOrder (elems overrides))
            = filter (λ n, n ∉ Name <$> named (elems existing))
                (overrideOrder (elems overrides))) as ->.
    { apply list_filter_iff. intros k. rewrite Hseen.
      pose proof (marked_empty k). naive_solver. }
    apply list_fmap_ext. intros _ n _. unfold appended, overrideEntry.
    by rewrite Hlookup.
Qed.

(** Overrides that name nothing leave the slice as it is. *)
Lemma mergeEnvOverrides_unnamed existing overrides :
  unnamed (elems overrides) → mergeEnvOverrides existing overrides = existing.
Proof.
  intros Hunnamed. unfold mergeEnvOverrides.
  destruct (len overrides =? 0)%Z; [done|].
  pose proof (collectOverride_values (elems overrides) ∅ []) as Hvalues.
  destruct (foldl collectOverride (∅, []) (elems overrides)) as [values order].
  cbn [fst] in Hvalues.
  assert (values = ∅) as ->.
  { apply map_empty. intros k. rewrite Hvalues.
    by rewrite (proj1 (lastValue_unnamed _) Hunnamed), lookup_empty. }
  by rewrite map_size_empty.
Qed.

Lemma Name_substitute overrides e : Name (substitute overrides e) = Name e.
Proof. unfold substitute. by destruct (lastValue overrides (Name e)). Qed.

(** C2, as the specification words it, fails: an existing entry without
    a name is not emitted when some override has a name. *)
Lemma mergeEnvOverrides_not_merge :
  elems (mergeEnvOverrides (Slice [envVar "" "v"]) (Slice [envVar "A" "1"]))
  ≠ merge [envVar "" "v"] [envVar "A" "1"].
Proof. vm_compute. discriminate. Qed.

(** C2, amended.  [mergeEnvOverrides] returns [existing] itself when
    there are no overrides, and also when no override has a name.
    Otherwise it is the merge of the specification applied to the
    existing entries that have a name: overrides are taken by name, the
    last value winning, the named existing entries are walked in order
    with overridden values substituted, and the new override names
    follow once each in first-seen order.  So on an existing list
    without empty names it is the merge of the specification; and
    merging [A=1; B=2] with [B=9; C=3] gives [A=1; B=9; C=3]. *)
Theorem mergeEnvOverrides_spec :
  (∀ existing overrides,
     (elems overrides = [] → mergeEnvOverrides existing overrides = existing)
     ∧ (unnamed (elems overrides) → mergeEnvOverrides existing overrides = existing)
     ∧ (¬ unnamed (elems overrides) →
        mergeEnvOverrides existing overrides
        = Slice (merge (named (elems existing)) (elems overrides)))
     ∧ (Forall (λ e, Name e ≠ "") (elems existing) →
        elems (mergeEnvOverrides existing overrides)
        = merge (elems existing) (elems overrides)))
  ∧ mergeEnvOverrides (Slice [envVar "A" "1"; envVar "B" "2"])
                      (Slice [envVar "B" "9"; envVar "C" "3"])
    = Slice [envVar "A" "1"; envVar "B" "9"; envVar "C" "3"].
Proof.
  split; [|by vm_compute].
  intros existing overrides. split; [|split; [|split]].
  - intros Hnil. apply mergeEnvOverrides_unnamed. rewrite Hnil. constructor.
  - apply mergeEnvOverrides_unnamed.
  - apply mergeEnvOverrides_named.
  - intros Hall. destruct (decide (unnamed (elems overrides))) as [Hu|Hu].
    + by rewrite mergeEnvOverrides_unnamed, merge_unnamed.
    + rewrite mergeEnvOverrides_named by done. cbn [elems].
      by rewrite named_all.
Qed.

Lemma mergeEnvOverrides_spec_witness :
  mergeEnvOverrides (Slice [envVar "" "v"; envVar "A" "0"])
                    (Slice [envVar "A" "1"; envVar "C" "2"; envVar "A" "3"])
  = Slice [envVar "A" "3"; envVar "C" "2"]
  ∧ elems (mergeEnvOverrides (Slice [envVar "A" "0"]) (Slice [envVar "C" "2"]))
    = [envVar "A" "0"; envVar "C" "2"].
Proof.
  destruct mergeEnvOverrides_spec as [Hmerge _]. split.
  - destruct (Hmerge (Slice [envVar "" "v"; envVar "A" "0"])
                (Slice [envVar "A" "1"; envVar "C" "2"; envVar "A" "3"]))
      as (_ & _ & -> & _); [by vm_compute|].
    intros Hu. by inversion Hu.
  - destruct (Hmerge (Slice [envVar "A" "0"]) (Slice [envVar "C" "2"]))
      as (_ & _ & _ & ->); [by vm_compute|].
    repeat constructor; done.
Defined.

(** C3, as stated, fails on the same input: one existing entry and one
    new name give a list of length one, from which the empty name of
    the existing entry is gone. *)
Lemma mergeEnvOverrides_length_counterexample :
  let existing := [envVar "" "v"] in
  let overrides := [envVar "A" "1"] in
  let merged := elems (mergeEnvOverrides (Slice existing) (Slice overrides)) in
  length merged ≠ (length existing + length (newNames existing overrides))%nat
  ∧ "" ∈ Name <$> existing
  ∧ "" ∉ Name <$> merged.
Proof.
  vm_compute. split; [discriminate|]. split; [by left|].
  intros H. inversion H as [|? ? ? H']. inversion H'.
Qed.

(** C3, amended.  When some override has a name, the merged list has as
    many entries as there are existing entries with a name, plus one
    for each new override name; when none has, it is the existing
    list.  Every name of an existing entry that is not empty is a name
    of the merged list.  So for an existing list without empty names
    the length is that of the existing list plus the number of new
    override names, and no existing name is missing. *)
Theorem mergeEnvOverrides_length_names existing overrides :
  let merged := elems (mergeEnvOverrides existing overrides) in
  (¬ unnamed (elems overrides) →
     length merged
     = (length (named (elems existing))
        + length (newNames (elems existing) (elems overrides)))%nat)
  ∧ (unnamed (elems overrides) → merged = elems existing)
  ∧ (∀ n, n ≠ "" → n ∈ Name <$> elems existing → n ∈ Name <$> merged)
  ∧ (Forall (λ e, Name e ≠ "") (elems existing) →
       length merged
       = (length (elems existing)
          + length (newNames (elems existing) (elems overrides)))%nat
       ∧ ∀ n, n ∈ Name <$> elems existing → n ∈ Name <$> merged).
Proof.
  cbn zeta.
  assert (∀ n, n ≠ "" → n ∈ Name <$> elems existing →
               n ∈ Name <$> elems (mergeEnvOverrides existing overrides)) as Hnames.
  { intros n Hn Hin. destruct (decide (unnamed (elems overrides))) as [Hu|Hu].
    { by rewrite mergeEnvOverrides_unnamed. }
    rewrite mergeEnvOverrides_named by done. cbn [elems]. unfold merge.
    destruct (elems overrides) as [|o r] eqn:Eo.
    { by apply elem_of_named_names. }
    rewrite fmap_app, elem_of_app. left.
    rewrite <- list_fmap_compose.
    assert (Name ∘ substitute (o :: r) <$> named (elems existing)
            = Name <$> named (elems existing)) as ->.
    { apply list_fmap_ext. intros _ e _. apply Name_substitute. }
    by apply elem_of_named_names. }
  assert (¬ unnamed (elems overrides) →
          length (elems (mergeEnvOverrides existing overrides))
          = (length (named (elems existing))
             + length (newNames (elems existing) (elems overrides)))%nat) as Hlen.
  { intros Hu. rewrite mergeEnvOverrides_named by done. cbn [elems]. unfold merge.
    destruct (elems overrides) as [|o r] eqn:Eo.
    { destruct Hu. constructor. }
    by rewrite length_app, !length_fmap, newNames_named. }
  split; [done|]. split; [|split; [done|]].
  - intros Hu. by rewrite mergeEnvOverrides_unnamed.
  - intros Hall. split.
    + destruct (decide (unnamed (elems overrides))) as [Hu|Hu].
      * rewrite mergeEnvOverrides_unnamed, newNames_unnamed by done. cbn. lia.
      * rewrite Hlen by done. by rewrite named_all.
    + intros n Hin. apply Hnames; [|done].
      intros ->. apply list_elem_of_fmap in Hin as (e & He & Hin).
      rewrite Forall_forall in Hall. by apply (Hall e).
Qed.

Lemma mergeEnvOverrides_length_names_witness :
  length (elems (mergeEnvOverrides (Slice [envVar "" "v"; envVar "A" "0"])
                                   (Slice [envVar "A" "1"; envVar "C" "2"])))
  = 2%nat
  ∧ length (elems (mergeEnvOverrides (Slice [envVar "A" "0"]) (Slice [envVar "C" "2"])))
    = 2%nat.
Proof.
  split.
  - destruct (mergeEnvOverrides_length_names
                (Slice [envVar "" "v"; envVar "A" "0"])
                (Slice [envVar "A" "1"; envVar "C" "2"])) as (-> & _); [by vm_compute|].
    intros Hu. by inversion Hu.
  - destruct (mergeEnvOverrides_length_names
                (Slice [envVar "A" "0"]) (Slice [envVar "C" "2"]))
      as (_ & _ & _ & Hall).
    destruct Hall as [-> _]; [|by vm_compute].
    repeat constructor; done.
Defined.

End Merge.

(** ** Environment codec *)

Section Codec.

(** The keys of [models.StackEnvVar] are taken to be [name] and [value]
    in some letter case (as a tag, or as the field names themselves). *)
Variables (nameKey valueKey : string).
Hypothesis nameKey_fold : Json.foldName nameKey = "name".
Hypothesis valueKey_fold : Json.foldName valueKey = "value".

Lemma findField_fold k1 k2 key :
  Json.foldName k1 ≠ Json.foldName k2 →
  Json.findField k1 k2 key
  = if String.eqb (Json.foldName key) (Json.foldName k1) then Some Json.FName
    else if String.eqb (Json.foldName key) (Json.foldName k2) then Some Json.FValue
         else None.
Proof.
  intros Hne. unfold Json.findField.
  destruct (String.eqb_spec key k1) as [->|_].
  { by rewrite String.eqb_refl. }
  destruct (String.eqb_spec key k2) as [->|_]; [|done].
  rewrite String.eqb_refl.
  destruct (String.eqb_spec (Json.foldName k2) (Json.foldName k1)); [|done].
  by destruct Hne.
Qed.

(** Matching keys up to case makes the two shapes one. *)
Lemma findField_keys key :
  Json.findField nameKey valueKey key = Json.findField "Name" "Value" key.
Proof.
  rewrite (findField_fold nameKey valueKey)
    by (by rewrite nameKey_fold, valueKey_fold).
  rewrite (findField_fold "Name" "Value") by (by vm_compute).
  by rewrite nameKey_fold, valueKey_fold.
Qed.

Lemma decodeMembers_keys members : ∀ e,
  Json.decodeMembers nameKey valueKey members e
  = Json.decodeMembers "Name" "Value" members e.
Proof.
  induction members as [|[key v] rest IH]; intros e; [done|].
  cbn [Json.decodeMembers]. rewrite findField_keys.
  destruct (Json.findField "Name" "Value" key); [|done].
  by destruct (Json.setField _ v e).
Qed.

Lemma decodeEntries_keys ty1 ty2 items :
  same_result (Json.decodeEntries nameKey valueKey ty1 items)
              (Json.decodeEntries "Name" "Value" ty2 items).
Proof.
  induction items as [|v rest IH]; [done|].
  cbn [Json.decodeEntries].
  assert (same_result (Json.decodeEntry nameKey valueKey ty1 v)
                      (Json.decodeEntry "Name" "Value" ty2 v)) as Hv.
  { destruct v; cbn; try done. rewrite decodeMembers_keys.
    by destruct (Json.decodeMembers _ _ _ _). }
  destruct (Json.decodeEntry nameKey valueKey ty1 v),
           (Json.decodeEntry "Name" "Value" ty2 v); try done.
  cbn in Hv. subst.
  destruct (Json.decodeEntries nameKey valueKey ty1 rest),
           (Json.decodeEntries "Name" "Value" ty2 rest); try done.
  cbn in IH. by subst.
Qed.

Lemma Unmarshal_keys ty1 ty2 raw :
  same_result (Json.Unmarshal nameKey valueKey ty1 raw)
              (Json.Unmarshal "Name" "Value" ty2 raw).
Proof.
  destruct raw as [|v|]; [done| |done].
  destruct v; try done. cbn [Json.Unmarshal].
  pose proof (decodeEntries_keys ty1 ty2 items) as H.
  destruct (Json.decodeEntries nameKey valueKey ty1 items),
           (Json.decodeEntries "Name" "Value" ty2 items); try done.
  cbn in H. by subst.
Qed.

(** When the primary decode succeeds, so does the alternate one, on the
    same entries. *)
Lemma Unmarshal_alt_of_primary raw env :
  Unmarshal_StackEnvVar nameKey valueKey raw = inr env →
  Unmarshal_stackEnvEntryAlt raw = inr (slice_map toAlt env).
Proof.
  unfold Unmarshal_StackEnvVar, Unmarshal_stackEnvEntryAlt.
  pose proof (Unmarshal_keys "models.StackEnvVar" "client.stackEnvEntryAlt" raw) as H.
  destruct (Json.Unmarshal nameKey valueKey _ raw) as [|s],
           (Json.Unmarshal "Name" "Value" _ raw) as [|s']; try done.
  cbn in H. subst s'. intros [= <-]. f_equal.
  destruct s as [|l]; [done|]. cbn. f_equal.
  rewrite <- list_fmap_compose. by apply list_fmap_ext.
Qed.

Lemma Unmarshal_primary_fails_of_alt raw err :
  Unmarshal_stackEnvEntryAlt raw = inl err →
  ∃ err', Unmarshal_StackEnvVar nameKey valueKey raw = inl err'.
Proof.
  intros Halt.
  destruct (Unmarshal_StackEnvVar nameKey valueKey raw) as [err'|env] eqn:E; [by eauto|].
  apply Unmarshal_alt_of_primary in E. congruence.
Qed.

Lemma hasEnvValues_true env : hasEnvValues env = true ↔ has_values (elems env).
Proof.
  unfold hasEnvValues, has_values. rewrite existsb_exists.
  setoid_rewrite <- list_elem_of_In.
  setoid_rewrite orb_true_iff. setoid_rewrite negb_true_iff.
  by setoid_rewrite String.eqb_neq.
Qed.

Lemma hasEnvValues_false env : hasEnvValues env = false ↔ ¬ has_values (elems env).
Proof. rewrite <- hasEnvValues_true. by destruct (hasEnvValues env). Qed.

Lemma parseStackEnv_alt_ok raw alt :
  Unmarshal_stackEnvEntryAlt raw = inr alt → parseStackEnv_alt raw = inr (altResult alt).
Proof.
  intros H. unfold parseStackEnv_alt, altResult. rewrite H.
  destruct (len alt =? 0)%Z eqn:E.
  - apply len_zero in E. by rewrite E.
  - destruct (elems alt) eqn:El; [|done].
    apply (proj2 (len_zero alt)) in El. congruence.
Qed.

Lemma parseStackEnv_alt_fails raw err :
  Unmarshal_stackEnvEntryAlt raw = inl err →
  parseStackEnv_alt raw = inl (Errorf_w "failed to parse stack env: " err "").
Proof. intros H. unfold parseStackEnv_alt. by rewrite H. Qed.

Lemma parseStackEnv_array items :
  parseStackEnv nameKey valueKey (RawJSON (JArray items))
  = match Unmarshal_StackEnvVar nameKey valueKey (RawJSON (JArray items)) with
    | inr env =>
        if (len env =? 0)%Z || hasEnvValues env then inr env
        else parseStackEnv_alt (RawJSON (JArray items))
    | inl _ => parseStackEnv_alt (RawJSON (JArray items))
    end.
Proof. reflexivity. Qed.

(** When an array is rejected, the alternate decode has failed, after a
    primary decode that failed or gave only entries without name and
    value. *)
Lemma parseStackEnv_error items err :
  parseStackEnv nameKey valueKey (RawJSON (JArray items)) = inl err ↔
  ∃ e2, Unmarshal_stackEnvEntryAlt (RawJSON (JArray items)) = inl e2
        ∧ err = Errorf_w "failed to parse stack env: " e2 ""
        ∧ ((∃ e1, Unmarshal_StackEnvVar nameKey valueKey (RawJSON (JArray items)) = inl e1)
           ∨ ∃ env, Unmarshal_StackEnvVar nameKey valueKey (RawJSON (JArray items)) = inr env
                    ∧ elems env ≠ [] ∧ ¬ has_values (elems env)).
Proof.
  rewrite parseStackEnv_array. split.
  - destruct (Unmarshal_StackEnvVar nameKey valueKey (RawJSON (JArray items)))
      as [e1|env] eqn:Eprimary.
    + destruct (Unmarshal_stackEnvEntryAlt (RawJSON (JArray items))) as [e2|alt] eqn:Ealt.
      * rewrite (parseStackEnv_alt_fails _ _ Ealt). intros [= <-]. eauto 6.
      * by rewrite (parseStackEnv_alt_ok _ _ Ealt).
    + destruct (len env =? 0)%Z eqn:Elen; [done|].
      destruct (hasEnvValues env) eqn:Ev; [done|]. cbn [orb].
      destruct (Unmarshal_stackEnvEntryAlt (RawJSON (JArray items))) as [e2|alt] eqn:Ealt.
      * rewrite (parseStackEnv_alt_fails _ _ Ealt). intros [= <-].
        exists e2. split; [done|]. split; [done|]. right. exists env.
        split; [done|]. split; [|by apply hasEnvValues_false].
        intros Hnil%len_zero. congruence.
      * by rewrite (parseStackEnv_alt_ok _ _ Ealt).
  - intros (e2 & Halt & -> & [[e1 ->]|(env & -> & Hne & Hv)]).
    + by apply parseStackEnv_alt_fails.
    + apply hasEnvValues_false in Hv. rewrite Hv.
      destruct (len env =? 0)%Z eqn:E; [by apply len_zero in E|].
      by apply parseStackEnv_alt_fails.
Qed.

(** With keys that differ from [Name] and [Value] by case only, that is
    when both decodes fail. *)
Lemma parseStackEnv_error_both items err :
  parseStackEnv nameKey valueKey (RawJSON (JArray items)) = inl err ↔
  ∃ e1 e2, Unmarshal_StackEnvVar nameKey valueKey (RawJSON (JArray items)) = inl e1
           ∧ Unmarshal_stackEnvEntryAlt (RawJSON (JArray items)) = inl e2
           ∧ err = Errorf_w "failed to parse stack env: " e2 "".
Proof.
  rewrite parseStackEnv_error. split.
  - intros (e2 & Halt & -> & [[e1 Hprimary]|(env & Hprimary & _)]); [by eauto|].
    apply Unmarshal_alt_of_primary in Hprimary. congruence.
  - intros (e1 & e2 & Hprimary & Halt & ->). eauto 6.
Qed.

Lemma decodeEntry_marshalEntry k1 k2 ty e :
  Json.foldName k1 ≠ Json.foldName k2 →
  Json.decodeEntry k1 k2 ty (Json.marshalEntry k1 k2 e) = inr e.
Proof.
  intros Hne. destruct e as [n v].
  cbn [Json.decodeEntry Json.marshalEntry Json.decodeMembers fst snd].
  unfold Json.findField. rewrite String.eqb_refl. cbn [Json.setField fst snd].
  destruct (String.eqb_spec k2 k1) as [->|_]; [done|].
  by rewrite String.eqb_refl.
Qed.

Lemma Unmarshal_Marshal k1 k2 ty l :
  Json.foldName k1 ≠ Json.foldName k2 →
  Json.Unmarshal k1 k2 ty (Json.Marshal k1 k2 (Slice l)) = inr (Slice l).
Proof.
  intros Hne. cbn [Json.Marshal Json.Unmarshal].
  assert (Json.decodeEntries k1 k2 ty (Json.marshalEntry k1 k2 <$> l) = inr l) as ->; [|done].
  induction l as [|e r IH]; [done|].
  rewrite fmap_cons. cbn [Json.decodeEntries].
  by rewrite decodeEntry_marshalEntry, IH.
Qed.

Lemma keys_distinct : Json.foldName nameKey ≠ Json.foldName valueKey.
Proof. by rewrite nameKey_fold, valueKey_fold. Qed.

Lemma fields_of_env (l : list StackEnvVar) :
  (λ e : string * string, {| Name := e.1; Value := e.2 |})
    <$> ((λ e, (Name e, Value e)) <$> l) = l.
Proof.
  rewrite <- list_fmap_compose. rewrite <- (list_fmap_id l) at 2.
  apply list_fmap_ext. by intros _ [] _.
Qed.

(** The primary decode reads both encodings of a list. *)
Lemma Unmarshal_primary_shape l :
  Unmarshal_StackEnvVar nameKey valueKey (Marshal_StackEnvVar nameKey valueKey (Slice l))
  = inr (Slice l).
Proof.
  unfold Unmarshal_StackEnvVar, Marshal_StackEnvVar. cbn [slice_map].
  rewrite Unmarshal_Marshal by apply keys_distinct.
  cbn [slice_map]. by rewrite fields_of_env.
Qed.

Lemma Unmarshal_alternate_shape l :
  Unmarshal_StackEnvVar nameKey valueKey (Marshal_stackEnvEntryAlt (Slice (toAlt <$> l)))
  = inr (Slice l).
Proof.
  unfold Unmarshal_StackEnvVar, Marshal_stackEnvEntryAlt. cbn [slice_map].
  pose proof (Unmarshal_keys "models.StackEnvVar" "client.stackEnvEntryAlt"
                (Json.Marshal "Name" "Value"
                   (Slice ((λ e, (AltName e, AltValue e)) <$> (toAlt <$> l))))) as H.
  rewrite (Unmarshal_Marshal "Name" "Value") in H by (by vm_compute).
  destruct (Json.Unmarshal nameKey valueKey _ _) as [|s]; [done|].
  cbn in H. subst s. cbn [slice_map]. f_equal. f_equal.
  rewrite <- !list_fmap_compose. rewrite <- (list_fmap_id l) at 2.
  apply list_fmap_ext. by intros _ [] _.
Qed.

(** Whatever the primary decode reads from an array is the answer. *)
Lemma parseStackEnv_primary items l :
  Unmarshal_StackEnvVar nameKey valueKey (RawJSON (JArray items)) = inr (Slice l) →
  parseStackEnv nameKey valueKey (RawJSON (JArray items)) = inr (Slice l).
Proof.
  intros Hprimary. rewrite parseStackEnv_array, Hprimary.
  destruct ((len (Slice l) =? 0)%Z || hasEnvValues (Slice l)) eqn:E; [done|].
  apply orb_false_iff in E as [E _].
  rewrite (parseStackEnv_alt_ok _ _ (Unmarshal_alt_of_primary _ _ Hprimary)).
  unfold altResult. cbn [slice_map elems].
  destruct l as [|e r]; [done|]. f_equal. f_equal.
  rewrite <- list_fmap_compose. rewrite <- (list_fmap_id (e :: r)) at 2.
  apply list_fmap_ext. by intros _ [] _.
Qed.

Lemma parseStackEnv_roundtrip l :
  parseStackEnv nameKey valueKey (Marshal_StackEnvVar nameKey valueKey (Slice l)) = inr (Slice l)
  ∧ parseStackEnv nameKey valueKey (Marshal_stackEnvEntryAlt (Slice (toAlt <$> l)))
    = inr (Slice l).
Proof.
  split.
  - apply parseStackEnv_primary, Unmarshal_primary_shape.
  - apply parseStackEnv_primary, Unmarshal_alternate_shape.
Qed.

(** C9.  The list of the one entry with name [X] and value [y], encoded
    as a list of [models.StackEnvVar] or as a list of [stackEnvEntryAlt],
    is parsed to that same list. *)
Theorem parseStackEnv_both_encodings :
  parseStackEnv nameKey valueKey
    (Marshal_StackEnvVar nameKey valueKey (Slice [envVar "X" "y"]))
  = inr (Slice [envVar "X" "y"])
  ∧ parseStackEnv nameKey valueKey
      (Marshal_stackEnvEntryAlt (Slice [ {| AltName := "X"; AltValue := "y" |} ]))
    = inr (Slice [envVar "X" "y"]).
Proof. apply (parseStackEnv_roundtrip [envVar "X" "y"]). Qed.

End Codec.

(** C8.  [parseStackEnv] answers a nil list and no error on empty and on
    [null] input.  On a JSON array: a primary decode without entries is
    the answer; so is a primary decode with an entry that carries a name
    or a value; a primary decode whose entries carry neither, and a
    failed primary decode, give way to the alternate decode, whose
    entries are then the answer; the answer is an error, the parse error
    wrapping that of the alternate decode, exactly when the alternate
    decode fails after such a primary decode; and, the keys of
    [models.StackEnvVar] being [name] and [value] in some letter case,
    that is exactly when both decodes fail. *)
Theorem parseStackEnv_spec nameKey valueKey :
  parseStackEnv nameKey valueKey RawEmpty = inr Nil
  ∧ parseStackEnv nameKey valueKey (RawJSON JNull) = inr Nil
  ∧ ∀ items,
      let raw := RawJSON (JArray items) in
      let primary := Unmarshal_StackEnvVar nameKey valueKey raw in
      let alternate := Unmarshal_stackEnvEntryAlt raw in
      (∀ env, primary = inr env → elems env = [] →
              parseStackEnv nameKey valueKey raw = inr env)
      ∧ (∀ env, primary = inr env → has_values (elems env) →
                parseStackEnv nameKey valueKey raw = inr env)
      ∧ (∀ env alt, primary = inr env → elems env ≠ [] → ¬ has_values (elems env) →
                    alternate = inr alt →
                    parseStackEnv nameKey valueKey raw = inr (altResult alt))
      ∧ (∀ err alt, primary = inl err → alternate = inr alt →
                    parseStackEnv nameKey valueKey raw = inr (altResult alt))
      ∧ (∀ err, parseStackEnv nameKey valueKey raw = inl err ↔
                ∃ e2, alternate = inl e2
                      ∧ err = Errorf_w "failed to parse stack env: " e2 ""
                      ∧ ((∃ e1, primary = inl e1)
                         ∨ ∃ env, primary = inr env
                                  ∧ elems env ≠ [] ∧ ¬ has_values (elems env)))
      ∧ (Json.foldName nameKey = "name" → Json.foldName valueKey = "value" →
         ∀ err, parseStackEnv nameKey valueKey raw = inl err ↔
                ∃ e1 e2, primary = inl e1 ∧ alternate = inl e2
                         ∧ err = Errorf_w "failed to parse stack env: " e2 "").
Proof.
  split; [done|]. split; [done|]. intros items. cbn zeta.
  split; [|split; [|split; [|split; [|split]]]].
  - intros env Hprimary Hnil. rewrite parseStackEnv_array, Hprimary.
    apply len_zero in Hnil. by rewrite Hnil.
  - intros env Hprimary Hv. rewrite parseStackEnv_array, Hprimary.
    apply hasEnvValues_true in Hv. by rewrite Hv, orb_true_r.
  - intros env alt Hprimary Hne Hv Halt. rewrite parseStackEnv_array, Hprimary.
    apply hasEnvValues_false in Hv. rewrite Hv.
    destruct (len env =? 0)%Z eqn:E; [by apply len_zero in E|].
    by apply parseStackEnv_alt_ok.
  - intros err alt Hprimary Halt. rewrite parseStackEnv_array, Hprimary.
    by apply parseStackEnv_alt_ok.
  - apply parseStackEnv_error.
  - intros Hname Hvalue err. by apply parseStackEnv_error_both.
Qed.

Lemma parseStackEnv_spec_witness :
  parseStackEnv "name" "value" (RawJSON (JArray [JObject [("Name", JNumber "5")]]))
  = inl (Errorf_w "failed to parse stack env: "
           (Json.UnmarshalTypeError (JNumber "5") "string") "")
  ∧ parseStackEnv "name" "value" (RawJSON (JArray [JObject [("other", JString "z")]]))
    = inr (Slice [envVar "" ""]).
Proof.
  destruct (parseStackEnv_spec "name" "value") as (_ & _ & H).
  split.
  - destruct (H [JObject [("Name", JNumber "5")]]) as (_ & _ & _ & _ & _ & Herr).
    apply Herr; [reflexivity | reflexivity |].
    eexists _, _. split; [reflexivity|]. split; reflexivity.
  - destruct (H [JObject [("other", JString "z")]]) as (_ & _ & Hretry & _).
    apply (Hretry (Slice [envVar "" ""]) (Slice [ {| AltName := ""; AltValue := "" |} ]));
      [reflexivity | done | | reflexivity].
    intros (e & He & Hv). apply list_elem_of_singleton in He. subst e.
    by destruct Hv.
Defined.

Lemma parseStackEnv_both_encodings_witness :
  parseStackEnv "name" "value"
    (RawJSON (JArray [JObject [("name", JString "X"); ("value", JString "y")]]))
  = inr (Slice [envVar "X" "y"])
  ∧ parseStackEnv "name" "value"
      (RawJSON (JArray [JObject [("Name", JString "X"); ("Value", JString "y")]]))
    = inr (Slice [envVar "X" "y"]).
Proof. exact (parseStackEnv_both_encodings "name" "value" eq_refl eq_refl). Defined.

(** ** The list of environment names *)

Section EnvNames.
Import Spec.

Lemma collectName_names env : ∀ names seen,
  (foldl collectName (names, seen) env).1
  = names ++ filter (λ n, ¬ marked seen n) (firstSeen (Name <$> named env)).
Proof.
  induction env as [|e r IH]; intros names seen.
  { cbn. by rewrite app_nil_r. }
  cbn [foldl]. unfold collectName at 2.
  destruct (String.eqb (Name e) "") eqn:E; cbn [orb].
  { apply eqb_empty_true in E. rewrite IH. by rewrite named_cons_unnamed. }
  apply eqb_empty_false in E. rewrite named_cons_named by done.
  rewrite fmap_cons. cbn [firstSeen].
  destruct (default false (seen !! Name e)) eqn:Eseen.
  - rewrite IH. rewrite filter_cons_False by (unfold marked; naive_solver).
    f_equal. symmetry. apply list_filter_filter_l. intros x Hx ->. by apply Hx.
  - apply not_marked in Eseen. rewrite IH.
    rewrite filter_cons_True by done.
    rewrite <- app_assoc. cbn [app]. do 2 f_equal.
    rewrite list_filter_filter. apply list_filter_iff. intros k.
    rewrite marked_insert. naive_solver.
Qed.

(** The loop of [GetStackEnvNames] lists the names that are not empty,
    each where it first occurs. *)
Lemma envNames_spec (env : slice StackEnvVar) :
  envNames env = Slice (Spec.names (elems env)).
Proof.
  unfold envNames, Spec.names. rewrite collectName_names. cbn [app].
  f_equal. apply filter_all, Forall_forall. intros n _. apply marked_empty.
Qed.

Lemma firstSeen_sublist l : firstSeen l `sublist_of` l.
Proof.
  induction l as [|n r IH]; [done|].
  cbn [firstSeen]. apply sublist_skip.
  etrans; [apply sublist_filter | done].
Qed.

(** No name twice, no empty name, every other name of the environment,
    in the order of the environment. *)
Lemma Spec_names_props l :
  NoDup (Spec.names l)
  ∧ (∀ n, n ∈ Spec.names l ↔ n ≠ "" ∧ n ∈ Name <$> l)
  ∧ Spec.names l `sublist_of` (Name <$> l).
Proof.
  unfold Spec.names. split; [apply NoDup_firstSeen|]. split.
  - intros n. by rewrite elem_of_firstSeen, elem_of_named_names.
  - etrans; [apply firstSeen_sublist|].
    apply fmap_sublist. apply sublist_filter.
Qed.

End EnvNames.

(** ** The façade *)

Section Facade.

Variables (nameKey valueKey : string) (net : Network) (formatRFC3339 : Z → string).

Lemma http_only_snoc tr req payload : http_only tr → http_only (tr ++ [HTTP req payload]).
Proof. intros H. apply Forall_app. split; [done|]. by repeat constructor. Qed.

Lemma http_only_no_update tr : http_only tr → Forall (λ e, isEdgeUpdate e = false) tr.
Proof. intros H. eapply Forall_impl; [done|]. by intros []. Qed.

Ltac io_step :=
  unfold bind, ret, emit; cbn beta iota.

Lemma getRegularStackDetailsHTTP_trace c id tr :
  http_only tr → http_only (getRegularStackDetailsHTTP nameKey valueKey net c id tr).2.
Proof.
  intros Htr. unfold getRegularStackDetailsHTTP.
  destruct (stackDetailsEndpoint net _) as [err|err|StatusCode Body]; io_step;
    [done | by apply http_only_snoc |].
  destruct (negb (StatusCode =? StatusOK)%Z); [by apply http_only_snoc|].
  destruct Body as [|? [|response]]; io_step; try by apply http_only_snoc.
  destruct (parseStackEnv _ _ _); by apply http_only_snoc.
Qed.

Lemma updateRegularStackHTTP_trace c id endpointId file env tr :
  http_only tr → http_only (updateRegularStackHTTP net c id endpointId file env tr).2.
Proof.
  intros Htr. unfold updateRegularStackHTTP.
  destruct (stackUpdateEndpoint net _ _) as [err|err|StatusCode Body]; io_step;
    [done | by apply http_only_snoc |].
  destruct ((StatusCode <? StatusOK)%Z || (StatusMultipleChoices <=? StatusCode)%Z);
    by apply http_only_snoc.
Qed.

Lemma listRegularStacksHTTP_trace c tr :
  http_only tr → http_only (listRegularStacksHTTP net c tr).2.
Proof.
  intros Htr. unfold listRegularStacksHTTP.
  destruct (stacksEndpoint net _) as [err|err|StatusCode Body]; io_step;
    [done | by apply http_only_snoc |].
  destruct (negb (StatusCode =? StatusOK)%Z); [by apply http_only_snoc|].
  destruct Body as [|? [|stacks]]; by apply http_only_snoc.
Qed.

Lemma configured c :
  serverURL c ≠ "" → token c ≠ "" →
  negb (String.eqb (serverURL c) "") && negb (String.eqb (token c) "") = true.
Proof. intros H1%String.eqb_neq H2%String.eqb_neq. by rewrite H1, H2. Qed.

Lemma unconfigured c :
  serverURL c = "" ∨ token c = "" →
  negb (String.eqb (serverURL c) "") && negb (String.eqb (token c) "") = false.
Proof.
  intros [H|H]; rewrite H; cbn; [done|]. apply andb_false_r.
Qed.

(** C1.  With server URL and token set and overrides given: when the
    details of the regular stack are fetched and the regular update then
    fails with an error the classifier sends to the edge path,
    [UpdateStack] answers that overrides are not supported for edge
    stacks, and the trace holds the two HTTP exchanges only, no call of
    the edge-update primitive. *)
Theorem UpdateStack_overrides_unsupported
    c id file environmentGroupIds envOverrides endpointId env tr1 err tr2 :
  serverURL c ≠ "" → token c ≠ "" →
  elems envOverrides ≠ [] →
  run (getRegularStackDetailsHTTP nameKey valueKey net c id) = (inr (endpointId, env), tr1) →
  updateRegularStackHTTP net c id endpointId file (mergeEnvOverrides env envOverrides) tr1
  = (Some err, tr2) →
  shouldFallbackToEdge err = true →
  run (UpdateStack nameKey valueKey net c id file environmentGroupIds envOverrides)
  = (Some (errorString "stack env overrides are not supported for edge stacks"), tr2)
  ∧ Forall (λ e, isEdgeUpdate e = false) tr2.
Proof.
  intros Hurl Htoken Hover Hdetails Hupdate Hfallback. split.
  - unfold run, UpdateStack in *. rewrite configured by done.
    unfold bind at 1. rewrite Hdetails. unfold bind at 1. rewrite Hupdate.
    rewrite Hfallback. unfold updateEdgeFallback.
    by rewrite (proj2 (len_pos envOverrides)).
  - apply http_only_no_update.
    pose proof (updateRegularStackHTTP_trace c id endpointId file
                  (mergeEnvOverrides env envOverrides) tr1) as H.
    rewrite Hupdate in H. apply H.
    pose proof (getRegularStackDetailsHTTP_trace c id []) as H'.
    unfold run in Hdetails. rewrite Hdetails in H'. apply H'. constructor.
Qed.

(** C6.  Without server URL or token: with no overrides [UpdateStack]
    calls the edge-update primitive, once and nothing else, with the
    given file and group ids, and answers as it does (its error
    wrapped); with overrides it answers that they need a server URL and
    token, and calls nothing. *)
Theorem UpdateStack_unconfigured c id file environmentGroupIds envOverrides :
  serverURL c = "" ∨ token c = "" →
  (elems envOverrides = [] →
     run (UpdateStack nameKey valueKey net c id file environmentGroupIds envOverrides)
     = (match UpdateEdgeStack (cli c) id file (IntToInt64Slice environmentGroupIds) with
        | Some err => Some (Errorf_w "failed to update edge stack: " err "")
        | None => None
        end,
        [SDK_UpdateEdgeStack id file (IntToInt64Slice environmentGroupIds)])
     ∧ elems (IntToInt64Slice environmentGroupIds) = elems environmentGroupIds)
  ∧ (elems envOverrides ≠ [] →
     run (UpdateStack nameKey valueKey net c id file environmentGroupIds envOverrides)
     = (Some (errorString "stack env overrides require a Portainer server url and token"),
        [])).
Proof.
  intros Hconf. split.
  - intros Hnil. split; [|done].
    unfold run, UpdateStack. rewrite unconfigured by done.
    assert ((0 <? len envOverrides)%Z = false) as ->.
    { destruct (0 <? len envOverrides)%Z eqn:E; [|done]. by apply len_pos in E. }
    io_step. by destruct (UpdateEdgeStack _ _ _ _).
  - intros Hover. unfold run, UpdateStack. rewrite unconfigured by done.
    by rewrite (proj2 (len_pos envOverrides)).
Qed.

(** C7.  [GetStackEnvNames] answers a configuration error, and calls
    nothing, without server URL or token.  With both: when fetching the
    details fails with an error the classifier sends to the edge path it
    answers that names are not available for edge stacks, and no edge
    primitive is called; another failure is passed on, wrapped; and when
    the details are fetched it answers the names of the environment that
    are not empty, each once, in the order of the environment. *)
Theorem GetStackEnvNames_spec c id :
  (serverURL c = "" ∨ token c = "" →
     run (GetStackEnvNames nameKey valueKey net c id)
     = (inl (errorString "stack env names require server url and token"), []))
  ∧ (serverURL c ≠ "" → token c ≠ "" →
     ∀ r tr1, run (getRegularStackDetailsHTTP nameKey valueKey net c id) = (r, tr1) →
       http_only tr1
       ∧ match r with
         | inl err =>
             run (GetStackEnvNames nameKey valueKey net c id)
             = (inl (if shouldFallbackToEdge err
                     then errorString "stack env names are not available for edge stacks"
                     else Errorf_w "failed to get stack details: " err ""),
                tr1)
         | inr (_, env) =>
             ∃ names,
               run (GetStackEnvNames nameKey valueKey net c id) = (inr (Slice names), tr1)
               ∧ names = Spec.names (elems env)
               ∧ NoDup names
               ∧ (∀ n, n ∈ names ↔ n ≠ "" ∧ n ∈ Name <$> elems env)
               ∧ names `sublist_of` (Name <$> elems env)
         end).
Proof.
  split.
  - intros Hconf. unfold run, GetStackEnvNames.
    apply unconfigured in Hconf.
    apply andb_false_iff in Hconf as [H|H]; apply negb_false_iff in H; rewrite H;
      [done | by rewrite orb_true_r].
  - intros Hurl Htoken r tr1 Hdetails. split.
    { pose proof (getRegularStackDetailsHTTP_trace c id []) as H.
      unfold run in Hdetails. rewrite Hdetails in H. apply H. constructor. }
    unfold run, GetStackEnvNames in *.
    apply String.eqb_neq in Hurl, Htoken. rewrite Hurl, Htoken. cbn [orb].
    unfold bind. rewrite Hdetails.
    destruct r as [err|[endpointId env]].
    + by destruct (shouldFallbackToEdge err).
    + exists (Spec.names (elems env)). io_step. rewrite envNames_spec.
      split; [done|]. split; [done|]. apply Spec_names_props.
Qed.

Lemma GetStacks_unfold c r tr1 :
  run (listRegularStacksHTTP net c) = (r, tr1) →
  run (GetStacks net formatRFC3339 c)
  = match r with
    | inr regularStacks =>
        if (0 <? len regularStacks)%Z then
          (inr (Slice (ConvertRegularStackToStack formatRFC3339 <$> elems regularStacks)),
           tr1)
        else listEdgeStacks formatRFC3339 c None tr1
    | inl err => listEdgeStacks formatRFC3339 c (Some err) tr1
    end.
Proof.
  unfold run, GetStacks, bind. intros ->.
  destruct r as [|regularStacks]; [done|].
  by destruct (0 <? len regularStacks)%Z.
Qed.

(** C4.  [GetStacks] asks the regular list first.  A list that is not
    empty is answered converted, every stack with an empty, not nil,
    list of environment groups, and the edge list is not asked.  After an
    empty regular list or a failure the edge list is asked: its stacks
    are answered converted; its failure is answered alone when the
    regular list was empty, and after the failure of the regular list in
    an error whose text gives both. *)
Theorem GetStacks_spec c r tr1 :
  run (listRegularStacksHTTP net c) = (r, tr1) →
  http_only tr1
  ∧ match r with
    | inr regularStacks =>
        (elems regularStacks ≠ [] →
           run (GetStacks net formatRFC3339 c)
           = (inr (Slice (ConvertRegularStackToStack formatRFC3339 <$> elems regularStacks)),
              tr1)
           ∧ Forall (λ s, EnvironmentGroupIds s = Slice [])
               (ConvertRegularStackToStack formatRFC3339 <$> elems regularStacks))
        ∧ (elems regularStacks = [] →
           run (GetStacks net formatRFC3339 c)
           = (match ListEdgeStacks (cli c) with
              | inr edgeStacks =>
                  inr (Slice (ConvertEdgeStackToStack formatRFC3339 <$> elems edgeStacks))
              | inl edgeErr => inl (Errorf_w "failed to list edge stacks: " edgeErr "")
              end,
              tr1 ++ [SDK_ListEdgeStacks]))
    | inl err =>
        run (GetStacks net formatRFC3339 c)
        = (match ListEdgeStacks (cli c) with
           | inr edgeStacks =>
               inr (Slice (ConvertEdgeStackToStack formatRFC3339 <$> elems edgeStacks))
           | inl edgeErr =>
               inl (wrapError ("failed to list regular stacks: " +:+ Error err
                               +:+ " (edge stacks also failed: " +:+ Error edgeErr +:+ ")")
                              err)
           end,
           tr1 ++ [SDK_ListEdgeStacks])
    end
  ∧ (∀ stacks tr, run (GetStacks net formatRFC3339 c) = (inr stacks, tr) →
       Forall (λ s, is_nil (EnvironmentGroupIds s) = false) (elems stacks)).
Proof.
  intros Hlist.
  assert (http_only tr1) as Htr.
  { pose proof (listRegularStacksHTTP_trace c []) as H.
    unfold run in Hlist. rewrite Hlist in H. apply H. constructor. }
  split; [done|].
  rewrite (GetStacks_unfold _ _ _ Hlist).
  assert (∀ regularErr stacks tr,
            listEdgeStacks formatRFC3339 c regularErr tr1 = (inr stacks, tr) →
            Forall (λ s, is_nil (EnvironmentGroupIds s) = false) (elems stacks)) as Hedge.
  { intros regularErr stacks tr. unfold listEdgeStacks. io_step.
    destruct (ListEdgeStacks (cli c)) as [edgeErr|edgeStacks].
    { by destruct regularErr. }
    intros [= <- _]. cbn [elems]. apply Forall_fmap, Forall_forall. done. }
  destruct r as [err|regularStacks].
  - split; [|by apply Hedge].
    unfold listEdgeStacks. io_step. by destruct (ListEdgeStacks (cli c)).
  - destruct (0 <? len regularStacks)%Z eqn:E.
    + apply len_pos in E. split; [split; [|done]|].
      * intros _. split; [done|]. apply Forall_fmap, Forall_forall. done.
      * intros stacks tr [= <- _]. cbn [elems]. apply Forall_fmap, Forall_forall. done.
    + assert (elems regularStacks = []) as Hnil.
      { destruct (elems regularStacks) eqn:El; [done|].
        assert ((0 <? len regularStacks)%Z = true); [|congruence].
        apply len_pos. by rewrite El. }
      split; [split; [done|]|by apply Hedge].
      intros _. unfold listEdgeStacks. io_step. by destruct (ListEdgeStacks (cli c)).
Qed.

End Facade.

Lemma UpdateStack_overrides_unsupported_witness :
  ∃ tr,
    run (UpdateStack "name" "value" (testServer 200 500 "this is an Edge Stack")
           (testClient "portainer.local" "test-token") 42 "version: '3'"
           (Slice [1]) (Slice [envVar "A" "1"]))
    = (Some (errorString "stack env overrides are not supported for edge stacks"), tr)
    ∧ Forall (λ e, isEdgeUpdate e = false) tr.
Proof.
  eexists.
  eapply (UpdateStack_overrides_unsupported "name" "value"
            (testServer 200 500 "this is an Edge Stack")
            (testClient "portainer.local" "test-token") 42 "version: '3'"
            (Slice [1]) (Slice [envVar "A" "1"])).
  - by vm_compute.
  - by vm_compute.
  - by vm_compute.
  - vm_compute. reflexivity.
  - vm_compute. reflexivity.
  - vm_compute. reflexivity.
Defined.

Lemma UpdateStack_unconfigured_witness :
  run (UpdateStack "name" "value" (testServer 200 200 "") (testClient "" "test-token")
         1 "version: '3'" (Slice [1; 2]) (Slice []))
  = (None, [SDK_UpdateEdgeStack 1 "version: '3'" (Slice [1; 2])])
  ∧ run (UpdateStack "name" "value" (testServer 200 200 "") (testClient "portainer.local" "")
           1 "version: '3'" (Slice [1; 2]) (Slice [envVar "A" "1"]))
    = (Some (errorString "stack env overrides require a Portainer server url and token"), []).
Proof.
  split.
  - destruct (UpdateStack_unconfigured "name" "value" (testServer 200 200 "")
                (testClient "" "test-token") 1 "version: '3'" (Slice [1; 2]) (Slice []))
      as [Hedge _]; [by left|].
    destruct Hedge as [-> _]; [reflexivity|]. reflexivity.
  - destruct (UpdateStack_unconfigured "name" "value" (testServer 200 200 "")
                (testClient "portainer.local" "") 1 "version: '3'" (Slice [1; 2])
                (Slice [envVar "A" "1"]))
      as [_ Hconfig]; [by right|].
    apply Hconfig. by vm_compute.
Defined.

Lemma GetStackEnvNames_spec_witness :
  (∃ tr, run (GetStackEnvNames "name" "value" (testServer 404 200 "")
                (testClient "portainer.local" "test-token") 76)
         = (inl (errorString "stack env names are not available for edge stacks"), tr)
         ∧ http_only tr)
  ∧ run (GetStackEnvNames "name" "value" (testServer 200 200 "")
           (testClient "" "") 42)
    = (inl (errorString "stack env names require server url and token"), []).
Proof.
  split.
  - destruct (GetStackEnvNames_spec "name" "value" (testServer 404 200 "")
                (testClient "portainer.local" "test-token") 76) as [_ H].
    edestruct H as [Htr Hrun]; [by vm_compute | by vm_compute | vm_compute; reflexivity |].
    eexists. split; [exact Hrun | exact Htr].
  - destruct (GetStackEnvNames_spec "name" "value" (testServer 200 200 "")
                (testClient "" "") 42) as [H _].
    apply H. by left.
Defined.

Lemma GetStacks_spec_witness :
  ∃ tr,
    run (GetStacks (testServer 200 200 "") (λ _, "1970-01-01T00:00:00Z")
           (testClient "portainer.local" "test-token"))
    = (inr (Slice [ {| ID := 10; StackName := "regular-stack";
                       CreatedAt := "1970-01-01T00:00:00Z";
                       EnvironmentGroupIds := Slice [] |} ]), tr)
    ∧ http_only tr.
Proof.
  edestruct (GetStacks_spec (testServer 200 200 "") (λ _, "1970-01-01T00:00:00Z")
               (testClient "portainer.local" "test-token")) as (Htr & Hrun & _).
  { vm_compute. reflexivity. }
  cbn beta iota in Hrun. destruct Hrun as [Hrun _].
  destruct Hrun as [Hrun _]; [by vm_compute|].
  eexists. split; [exact Hrun | exact Htr].
Defined.

(** ** The update-stack tool handler *)

Section HandlerFacts.
Import MCP.

Variable Sprint : any → string.

Lemma parseEntry_inr entry v :
  parseEntry Sprint entry = inr v ↔ stands_for entry v ∧ Name v ≠ "".
Proof.
  unfold parseEntry, stands_for, mapIndex. split.
  - destruct entry as [| | | | |m]; try done.
    destruct (m !! "name") as [[| | |name| |]|] eqn:En; try done.
    cbn [from_option id]. destruct (String.eqb_spec name ""); [done|].
    destruct (m !! "value") as [[| | |value| |]|] eqn:Ev; try done.
    cbn [from_option id]. intros [= <-]. eauto.
  - intros [(m & -> & -> & ->) Hne]. cbn [from_option id].
    apply String.eqb_neq in Hne. rewrite Hne. by destruct v.
Qed.

Lemma parseEntry_well_formed entry :
  (∃ v, parseEntry Sprint entry = inr v) ↔ well_formed entry.
Proof.
  split.
  - intros [v [(m & -> & Hn & Hv) Hne]%parseEntry_inr]. exists m, (Name v), (Value v). eauto.
  - intros (m & name & value & -> & Hn & Hne & Hv).
    exists {| Name := name; Value := value |}. apply parseEntry_inr.
    split; [|done]. exists m. eauto.
Qed.

Lemma parseEntries_inr entries : ∀ result r,
  parseEntries Sprint entries result = inr r →
  ∃ vs, r = result ++ vs ∧ Forall2 stands_for entries vs ∧ Forall well_formed entries.
Proof.
  induction entries as [|entry rest IH]; intros result r.
  { intros [= <-]. exists []. by rewrite app_nil_r. }
  cbn [parseEntries]. destruct (parseEntry Sprint entry) as [|v] eqn:E; [done|].
  intros (vs & -> & Hvs & Hwf)%IH. exists (v :: vs).
  rewrite <- app_assoc. split; [done|].
  pose proof (proj1 (parseEntry_inr _ _) E) as [? ?].
  split; constructor; try done.
  apply parseEntry_well_formed. eauto.
Qed.

Lemma parseEntries_inl entries : ∀ result err,
  parseEntries Sprint entries result = inl err →
  ∃ entry, entry ∈ entries ∧ ¬ well_formed entry.
Proof.
  induction entries as [|entry rest IH]; intros result err; [done|].
  cbn [parseEntries]. destruct (parseEntry Sprint entry) as [err'|v] eqn:E.
  - intros _. exists entry. split; [by left|].
    intros [v Hv]%parseEntry_well_formed. congruence.
  - intros (entry' & Hin & Hwf)%IH. exists entry'. split; [by right|done].
Qed.

Lemma parseStackEnvOverrides_empty (entries : slice any) :
  elems entries = [] → parseStackEnvOverrides Sprint entries = inr (Slice []).
Proof. intros H%len_zero. unfold parseStackEnvOverrides. by rewrite H. Qed.

Variable client : StackClient.

(** C10.  [parseStackEnvOverrides] fails exactly when some entry is not
    an object with a string ["name"] that is not empty and a string
    ["value"], and [HandleUpdateStack] then answers an error without
    calling [UpdateStack], which is called only with a list parsed from
    such objects; when it succeeds its list holds, entry by entry, those
    names and values; and a nil or empty array gives an empty list that
    is not nil, with which [UpdateStack] is called. *)
Theorem parseStackEnvOverrides_spec :
  (∀ entries : slice any,
     (∃ err, parseStackEnvOverrides Sprint entries = inl err)
     ↔ ∃ entry, entry ∈ elems entries ∧ ¬ well_formed entry)
  ∧ (∀ (entries : slice any) overrides,
       parseStackEnvOverrides Sprint entries = inr overrides →
       is_nil overrides = false ∧ Forall2 stands_for (elems entries) (elems overrides))
  ∧ (∀ entries : slice any,
       elems entries = [] → parseStackEnvOverrides Sprint entries = inr (Slice []))
  ∧ (∀ parser id file environmentGroupIds envOverridesRaw,
       GetInt parser "id" true = inr id →
       GetString parser "file" true = inr file →
       GetArrayOfIntegers parser "environmentGroupIds" true = inr environmentGroupIds →
       GetArrayOfObjects parser "envOverrides" false = inr envOverridesRaw →
       match parseStackEnvOverrides Sprint envOverridesRaw with
       | inl err =>
           HandleUpdateStack Sprint client parser
           = (NewToolResultErrorFromErr "invalid envOverrides parameter" err, [])
       | inr envOverrides =>
           (HandleUpdateStack Sprint client parser).2
           = [Call_UpdateStack id file environmentGroupIds envOverrides]
       end)
  ∧ (∀ parser c, c ∈ (HandleUpdateStack Sprint client parser).2 →
       ∃ envOverridesRaw envOverrides,
         GetArrayOfObjects parser "envOverrides" false = inr envOverridesRaw
         ∧ parseStackEnvOverrides Sprint envOverridesRaw = inr envOverrides
         ∧ Forall well_formed (elems envOverridesRaw)).
Proof.
  split; [|split; [|split; [|split]]].
  - intros entries. unfold parseStackEnvOverrides. split.
    + intros [err Herr]. destruct (len entries =? 0)%Z; [done|].
      destruct (parseEntries Sprint (elems entries) []) as [err'|] eqn:E; [|done].
      by apply parseEntries_inl in E.
    + intros (entry & Hin & Hwf).
      destruct (len entries =? 0)%Z eqn:Elen.
      { apply len_zero in Elen. rewrite Elen in Hin. by apply elem_of_nil in Hin. }
      destruct (parseEntries Sprint (elems entries) []) as [err|r] eqn:E; [by eauto|].
      apply parseEntries_inr in E as (_ & _ & _ & Hall).
      rewrite Forall_forall in Hall. destruct Hwf. by apply Hall.
  - intros entries overrides. unfold parseStackEnvOverrides.
    destruct (len entries =? 0)%Z eqn:Elen.
    { apply len_zero in Elen. intros [= <-]. rewrite Elen. split; [done|constructor]. }
    destruct (parseEntries Sprint (elems entries) []) as [err|r] eqn:E; [done|].
    intros [= <-]. apply parseEntries_inr in E as (vs & -> & Hvs & _). done.
  - apply parseStackEnvOverrides_empty.
  - intros parser id file environmentGroupIds envOverridesRaw Hid Hfile Hgroups Hraw.
    unfold HandleUpdateStack. rewrite Hid, Hfile, Hgroups, Hraw.
    destruct (parseStackEnvOverrides Sprint envOverridesRaw) as [err|envOverrides]; [done|].
    by destruct (cli_UpdateStack client _ _ _ _).
  - intros parser c. unfold HandleUpdateStack.
    destruct (GetInt parser "id" true); [by intros ?%elem_of_nil|].
    destruct (GetString parser "file" true); [by intros ?%elem_of_nil|].
    destruct (GetArrayOfIntegers parser "environmentGroupIds" true);
      [by intros ?%elem_of_nil|].
    destruct (GetArrayOfObjects parser "envOverrides" false) as [|envOverridesRaw];
      [by intros ?%elem_of_nil|].
    destruct (parseStackEnvOverrides Sprint envOverridesRaw) as [|envOverrides] eqn:E;
      [by intros ?%elem_of_nil|].
    intros _. exists envOverridesRaw, envOverrides. split; [done|]. split; [done|].
    apply Forall_forall. intros entry Hin.
    destruct (parseEntry_well_formed entry) as [Hwf _].
    unfold parseStackEnvOverrides in E.
    destruct (len envOverridesRaw =? 0)%Z eqn:Elen.
    { apply len_zero in Elen. rewrite Elen in Hin. by apply elem_of_nil in Hin. }
    destruct (parseEntries Sprint (elems envOverridesRaw) []) as [|r] eqn:Er; [done|].
    apply parseEntries_inr in Er as (_ & _ & _ & Hall).
    rewrite Forall_forall in Hall. by apply Hall.
Qed.

End HandlerFacts.

Lemma parseStackEnvOverrides_spec_witness :
  (MCP.HandleUpdateStack (λ _, "<nil>") testStackClient
     (testParser (Slice [MCP.AnyMap {[ "name" := MCP.AnyString "A" ]}])))
  = (MCP.NewToolResultErrorFromErr "invalid envOverrides parameter"
       (errorString "invalid env value: <nil>"), [])
  ∧ (MCP.HandleUpdateStack (λ _, "<nil>") testStackClient (testParser Nil)).2
    = [MCP.Call_UpdateStack 42 "version: '3'" (Slice [1]) (Slice [])].
Proof.
  destruct (parseStackEnvOverrides_spec (λ _, "<nil>") testStackClient)
    as (_ & _ & _ & Hhandler & _).
  split.
  - exact (Hhandler (testParser (Slice [MCP.AnyMap {[ "name" := MCP.AnyString "A" ]}]))
             42 "version: '3'" (Slice [1])
             (Slice [MCP.AnyMap {[ "name" := MCP.AnyString "A" ]}])
             eq_refl eq_refl eq_refl eq_refl).
  - exact (Hhandler (testParser Nil) 42 "version: '3'" (Slice [1]) Nil
             eq_refl eq_refl eq_refl eq_refl).
Defined.

(** ** Scenarios of the test suite *)

(** A regular update: the details are fetched, the environment of the
    stack, sent in the alternate shape, is written back, and the edge SDK
    is not called. *)
Example UpdateStack_regular :
  run (UpdateStack "name" "value" (testServer 200 200 "")
         (testClient "portainer.local/" "test-token") 42 "version: '3'" (Slice [1]) Nil)
  = (None,
     [HTTP {| Method := "GET"; URL := "https://portainer.local/api/stacks/42";
              APIKey := "test-token"; InsecureSkipVerify := false |} None;
      HTTP {| Method := "PUT";
              URL := "https://portainer.local/api/stacks/42?endpointId=21";
              APIKey := "test-token"; InsecureSkipVerify := false |}
           (Some {| StackFileContent := "version: '3'"; Prune := false; PullImage := false;
                    Env := Slice [envVar "DYNU_TOKEN" "token"] |})]).
Proof. vm_compute. reflexivity. Qed.

(** The details answer 404: the update goes to the edge SDK. *)
Example UpdateStack_fallback_to_edge :
  run (UpdateStack "name" "value" (testServer 404 200 "")
         (testClient "http://portainer.local" "test-token") 76 "version: '3'"
         (Slice [1; 2]) Nil)
  = (None,
     [HTTP {| Method := "GET"; URL := "http://portainer.local/api/stacks/76";
              APIKey := "test-token"; InsecureSkipVerify := false |} None;
      SDK_UpdateEdgeStack 76 "version: '3'" (Slice [1; 2])]).
Proof. vm_compute. reflexivity. Qed.

(** Without a server the list of stacks is the list of the edge SDK. *)
Example GetStacks_edge :
  (run (GetStacks
          {| stacksEndpoint := λ _, DoFailed (errorString "no such host");
             stackFileEndpoint := λ _, DoFailed (errorString "no such host");
             stackDetailsEndpoint := λ _, DoFailed (errorString "no such host");
             stackUpdateEndpoint := λ _ _, DoFailed (errorString "no such host") |}
          (λ _, "1970-01-01T00:00:00Z") (testClient "" ""))).1
  = inr (Slice [ {| ID := 1; StackName := "stack1"; CreatedAt := "1970-01-01T00:00:00Z";
                    EnvironmentGroupIds := Slice [1; 2] |};
                 {| ID := 2; StackName := "stack2"; CreatedAt := "1970-01-01T00:00:00Z";
                    EnvironmentGroupIds := Slice [3] |} ]).
Proof. vm_compute. reflexivity. Qed.

(** * Further properties *)

(** ** Environment merge *)

Section MergeMore.
Import Spec.

Lemma substitute_idemp overrides e :
  substitute overrides (substitute overrides e) = substitute overrides e.
Proof.
  unfold substitute at 1. rewrite Name_substitute.
  unfold substitute. by destruct (lastValue overrides (Name e)).
Qed.

Lemma elem_of_overrideOrder overrides n :
  n ∈ overrideOrder overrides ↔ is_Some (lastValue overrides n).
Proof.
  unfold overrideOrder.
  by rewrite elem_of_firstSeen, elem_of_named_names, lastValue_is_Some.
Qed.

Lemma substitute_overrideEntry overrides n :
  substitute overrides (overrideEntry overrides n) = overrideEntry overrides n.
Proof.
  unfold substitute, overrideEntry. cbn [Name].
  by destruct (lastValue overrides n).
Qed.

(** The names of a merge: those of the existing entries, then the new
    ones. *)
Lemma merge_names existing overrides :
  Name <$> merge existing overrides = (Name <$> existing) ++ newNames existing overrides.
Proof.
  unfold merge. destruct overrides as [|o r].
  { unfold newNames, overrideOrder. cbn. by rewrite app_nil_r. }
  rewrite fmap_app, <- !list_fmap_compose. f_equal.
  - apply list_fmap_ext. intros _ e _. apply Name_substitute.
  - rewrite <- (list_fmap_id (newNames _ _)) at 2. by apply list_fmap_ext.
Qed.

Lemma newNames_nonempty existing overrides n : n ∈ newNames existing overrides → n ≠ "".
Proof.
  unfold newNames. intros [_ Hn]%list_elem_of_filter.
  apply elem_of_overrideOrder, lastValue_is_Some in Hn. by destruct Hn.
Qed.

Lemma merge_all_named existing overrides :
  Forall (λ e, Name e ≠ "") existing →
  Forall (λ e, Name e ≠ "") (merge existing overrides).
Proof.
  intros Hall.
  assert (Forall (λ n, n ≠ "") (Name <$> merge existing overrides)) as H.
  { rewrite merge_names. apply Forall_app. split.
    - by apply Forall_fmap.
    - apply Forall_forall. intros n. apply newNames_nonempty. }
  rewrite Forall_forall in H. apply Forall_forall. intros e He.
  apply H. by apply list_elem_of_fmap_2.
Qed.

Lemma named_named l : Forall (λ e, Name e ≠ "") (named l).
Proof. apply Forall_forall. by intros e [? _]%list_elem_of_filter. Qed.

(** Merging the same overrides into a merge changes nothing. *)
Lemma merge_merge existing overrides :
  merge (merge existing overrides) overrides = merge existing overrides.
Proof.
  destruct overrides as [|o r] eqn:Eo; [done|]. rewrite <- Eo.
  assert (merge (merge existing overrides) overrides
          = (substitute overrides <$> merge existing overrides)
            ++ (overrideEntry overrides <$> newNames (merge existing overrides) overrides))
    as -> by (by rewrite Eo).
  assert (newNames (merge existing overrides) overrides = []) as ->.
  { apply filter_none, Forall_forall. intros n Hn Hnot. apply Hnot.
    rewrite merge_names, elem_of_app.
    destruct (decide (n ∈ Name <$> existing)); [by left|right].
    unfold newNames. by apply list_elem_of_filter. }
  rewrite app_nil_r.
  assert (merge existing overrides
          = (substitute overrides <$> existing)
            ++ (overrideEntry overrides <$> newNames existing overrides))
    as -> by (by rewrite Eo).
  rewrite fmap_app, <- !list_fmap_compose. f_equal.
  - apply list_fmap_ext. intros _ e _. apply substitute_idemp.
  - apply list_fmap_ext. intros _ n _. apply substitute_overrideEntry.
Qed.

(** X1.  Merging the same overrides a second time changes nothing: what
    [mergeEnvOverrides] returns is a fixed point for these overrides. *)
Theorem mergeEnvOverrides_idempotent existing overrides :
  mergeEnvOverrides (mergeEnvOverrides existing overrides) overrides
  = mergeEnvOverrides existing overrides.
Proof.
  destruct (decide (unnamed (elems overrides))) as [Hu|Hu].
  { by rewrite !mergeEnvOverrides_unnamed. }
  rewrite (mergeEnvOverrides_named existing) by done.
  rewrite mergeEnvOverrides_named by done. cbn [elems].
  rewrite named_all by apply merge_all_named, named_named.
  by rewrite merge_merge.
Qed.

(** X2.  When the last override of a name gives it the value [v], the
    merged list has an entry of that name, and every entry of that name
    in it has the value [v]. *)
Theorem mergeEnvOverrides_override_wins existing overrides n v :
  lastValue (elems overrides) n = Some v →
  n ∈ Name <$> elems (mergeEnvOverrides existing overrides)
  ∧ ∀ e, e ∈ elems (mergeEnvOverrides existing overrides) → Name e = n → Value e = v.
Proof.
  intros Hlast.
  assert (¬ unnamed (elems overrides)) as Hu.
  { intros Hun. by rewrite (proj1 (lastValue_unnamed _) Hun) in Hlast. }
  rewrite mergeEnvOverrides_named by done. cbn [elems]. split.
  - rewrite merge_names, elem_of_app.
    destruct (decide (n ∈ Name <$> named (elems existing))); [by left|right].
    unfold newNames. apply list_elem_of_filter. split; [done|].
    apply elem_of_overrideOrder. by eauto.
  - intros e He <-. unfold merge in He.
    destruct (elems overrides) as [|o r] eqn:Eo; [done|]. rewrite <- Eo in *.
    apply elem_of_app in He as [He|He].
    + apply list_elem_of_fmap in He as (e0 & -> & _).
      rewrite Name_substitute in Hlast. unfold substitute. by rewrite Hlast.
    + apply list_elem_of_fmap in He as (n & -> & _).
      unfold overrideEntry in *. cbn [Name Value] in *. by rewrite Hlast.
Qed.

Lemma mergeEnvOverrides_override_wins_witness :
  "B" ∈ Name <$> elems (mergeEnvOverrides (Slice [envVar "A" "1"; envVar "B" "2"])
                           (Slice [envVar "B" "8"; envVar "B" "9"])).
Proof.
  apply (mergeEnvOverrides_override_wins
           (Slice [envVar "A" "1"; envVar "B" "2"])
           (Slice [envVar "B" "8"; envVar "B" "9"]) "B" "9").
  reflexivity.
Defined.

(** X3.  The entries of the merged list with a name that no override has
    are those of the existing list, unchanged and in the same order. *)
Theorem mergeEnvOverrides_untouched existing overrides :
  untouched (elems overrides) (elems (mergeEnvOverrides existing overrides))
  = untouched (elems overrides) (elems existing).
Proof.
  destruct (decide (unnamed (elems overrides))) as [Hu|Hu].
  { by rewrite mergeEnvOverrides_unnamed. }
  rewrite mergeEnvOverrides_named by done. cbn [elems]. unfold untouched, merge.
  destruct (elems overrides) as [|o r] eqn:Eo.
  { destruct Hu. constructor. }
  rewrite <- Eo in *. rewrite filter_app.
  assert (filter (λ e, Name e ≠ "" ∧ lastValue (elems overrides) (Name e) = None)
            (overrideEntry (elems overrides)
               <$> newNames (named (elems existing)) (elems overrides)) = []) as ->.
  { apply filter_none, Forall_forall.
    intros e (n & -> & Hn)%list_elem_of_fmap [_ Hnone]. cbn [overrideEntry Name] in Hnone.
    unfold newNames in Hn. apply list_elem_of_filter in Hn as [_ Hn].
    apply elem_of_overrideOrder in Hn as [v Hv]. congruence. }
  rewrite app_nil_r. unfold named.
  induction (elems existing) as [|e l IH]; [done|].
  rewrite !(filter_cons _ e). destruct (decide (Name e ≠ "")) as [Hne|Hne].
  - rewrite fmap_cons, filter_cons, IH, Name_substitute.
    destruct (lastValue (elems overrides) (Name e)) eqn:El.
    + rewrite !decide_False by (intros [_ ?]; congruence). done.
    + rewrite !decide_True by done. f_equal. unfold substitute. by rewrite El.
  - rewrite decide_False by tauto. apply IH.
Qed.

(** X4.  When some override has a name the merged list is not nil and
    has no entry without a name; and when the names of the existing
    entries are pairwise distinct, so are those of the merged list. *)
Theorem mergeEnvOverrides_keeps_names_distinct existing overrides :
  (¬ unnamed (elems overrides) →
     is_nil (mergeEnvOverrides existing overrides) = false
     ∧ Forall (λ e, Name e ≠ "") (elems (mergeEnvOverrides existing overrides)))
  ∧ (NoDup (Name <$> elems existing) →
     NoDup (Name <$> elems (mergeEnvOverrides existing overrides))).
Proof.
  split.
  - intros Hu. rewrite mergeEnvOverrides_named by done. split; [done|].
    cbn [elems]. apply merge_all_named, named_named.
  - intros Hnodup. destruct (decide (unnamed (elems overrides))) as [Hu|Hu].
    { by rewrite mergeEnvOverrides_unnamed. }
    rewrite mergeEnvOverrides_named by done. cbn [elems].
    rewrite merge_names. apply NoDup_app. split; [|split].
    + eapply sublist_NoDup; [done|]. apply fmap_sublist, sublist_filter.
    + intros n Hn. unfold newNames. rewrite list_elem_of_filter. tauto.
    + unfold newNames, overrideOrder. apply NoDup_filter, NoDup_firstSeen.
Qed.

Lemma mergeEnvOverrides_keeps_names_distinct_witness :
  NoDup (Name <$> elems (mergeEnvOverrides (Slice [envVar "A" "1"; envVar "B" "2"])
                           (Slice [envVar "B" "9"; envVar "C" "3"; envVar "C" "4"]))).
Proof.
  apply (mergeEnvOverrides_keeps_names_distinct
           (Slice [envVar "A" "1"; envVar "B" "2"])
           (Slice [envVar "B" "9"; envVar "C" "3"; envVar "C" "4"])).
  cbn. repeat constructor; set_solver.
Defined.

Lemma firstSeen_app_new a b :
  NoDup b → (∀ x, x ∈ b → x ∉ a) → firstSeen (a ++ b) = firstSeen a ++ b.
Proof.
  intros Hb Hdisj. induction a as [|x a IH].
  { by apply firstSeen_NoDup. }
  cbn [app firstSeen]. rewrite IH by (intros y Hy Hin; apply (Hdisj y Hy); by right).
  rewrite filter_app. f_equal. f_equal.
  apply filter_all, Forall_forall. intros y Hy ->. apply (Hdisj x Hy). by left.
Qed.

(** X5.  The names [GetStackEnvNames] lists for a merged environment are
    those it lists for the existing one, followed by the new override
    names in first-seen order. *)
Theorem envNames_mergeEnvOverrides existing overrides :
  elems (envNames (mergeEnvOverrides existing overrides))
  = elems (envNames existing) ++ newNames (elems existing) (elems overrides).
Proof.
  rewrite !envNames_spec. cbn [elems].
  destruct (decide (unnamed (elems overrides))) as [Hu|Hu].
  { by rewrite mergeEnvOverrides_unnamed, newNames_unnamed, app_nil_r. }
  rewrite mergeEnvOverrides_named by done. cbn [elems]. unfold names.
  rewrite (named_all (merge _ _)) by apply merge_all_named, named_named.
  rewrite merge_names, newNames_named.
  apply firstSeen_app_new.
  - unfold newNames, overrideOrder. apply NoDup_filter, NoDup_firstSeen.
  - intros n Hn. rewrite <- newNames_named in Hn. unfold newNames in Hn.
    by apply list_elem_of_filter in Hn as [? _].
Qed.

End MergeMore.

(** ** Environment codec *)

Section CodecMore.

Lemma decodeEntries_Forall2 k1 k2 ty items : ∀ l,
  Json.decodeEntries k1 k2 ty items = inr l →
  Forall2 (λ item p, Json.decodeEntry k1 k2 ty item = inr p) items l.
Proof.
  induction items as [|v rest IH]; intros l.
  { intros [= <-]. constructor. }
  cbn [Json.decodeEntries].
  destruct (Json.decodeEntry k1 k2 ty v) as [|p] eqn:Ev; [done|].
  destruct (Json.decodeEntries k1 k2 ty rest) as [|ps]; [done|].
  intros [= <-]. constructor; [done|]. by apply IH.
Qed.

(** X6.  When [parseStackEnv] answers a list for a JSON array, the list
    has one entry for each element of the array, in order, and all
    entries are read with the same keys: those of [models.StackEnvVar],
    or [Name] and [Value]. *)
Theorem parseStackEnv_entries nameKey valueKey items env :
  parseStackEnv nameKey valueKey (RawJSON (JArray items)) = inr env →
  length (elems env) = length items
  ∧ (Forall2 (λ item e, Json.decodeEntry nameKey valueKey "models.StackEnvVar" item
                        = inr (Name e, Value e)) items (elems env)
     ∨ Forall2 (λ item e, Json.decodeEntry "Name" "Value" "client.stackEnvEntryAlt" item
                          = inr (Name e, Value e)) items (elems env)).
Proof.
  intros Hparse.
  assert (Forall2 (λ item e, Json.decodeEntry nameKey valueKey "models.StackEnvVar" item
                             = inr (Name e, Value e)) items (elems env)
          ∨ Forall2 (λ item e, Json.decodeEntry "Name" "Value" "client.stackEnvEntryAlt" item
                               = inr (Name e, Value e)) items (elems env)) as H.
  { rewrite parseStackEnv_array in Hparse.
    assert (parseStackEnv_alt (RawJSON (JArray items)) = inr env →
            Forall2 (λ item e, Json.decodeEntry "Name" "Value" "client.stackEnvEntryAlt" item
                               = inr (Name e, Value e)) items (elems env)) as Halt.
    { unfold parseStackEnv_alt, Unmarshal_stackEnvEntryAlt. cbn [Json.Unmarshal].
      destruct (Json.decodeEntries "Name" "Value" _ items) as [|l] eqn:El; [done|].
      apply decodeEntries_Forall2 in El. cbn [slice_map].
      destruct (len _ =? 0)%Z eqn:Elen.
      - apply len_zero in Elen. cbn [elems] in Elen.
        apply fmap_nil_inv in Elen. subst l. intros [= <-].
        inversion El. constructor.
      - intros [= <-]. cbn [elems]. rewrite <- list_fmap_compose.
        apply Forall2_fmap_r. eapply Forall2_impl; [done|]. by intros item []. }
    unfold Unmarshal_StackEnvVar in Hparse. cbn [Json.Unmarshal] in Hparse.
    destruct (Json.decodeEntries nameKey valueKey _ items) as [|l] eqn:El; [by auto|].
    cbn [slice_map] in Hparse.
    destruct (_ || _); [|by auto].
    injection Hparse as <-. left. cbn [elems].
    apply decodeEntries_Forall2 in El.
    apply Forall2_fmap_r. eapply Forall2_impl; [done|]. by intros item []. }
  split; [|done]. symmetry. by destruct H as [H|H]; apply Forall2_length in H.
Qed.

Lemma parseStackEnv_entries_witness :
  length (elems (Slice [envVar "X" "y"; envVar "" ""])) = 2%nat.
Proof.
  apply (parseStackEnv_entries "name" "value"
           [JObject [("NAME", JString "X"); ("value", JString "y")]; JNull]
           (Slice [envVar "X" "y"; envVar "" ""])).
  reflexivity.
Defined.



(** X8.  With such keys the alternate decode never changes the answer:
    on input that is neither empty nor [null], [parseStackEnv] answers a
    list exactly when the primary decode does, and it is that list. *)
Theorem parseStackEnv_is_primary nameKey valueKey :
  Json.foldName nameKey = "name" → Json.foldName valueKey = "value" →
  ∀ raw env, emptyOrNull raw = false →
    parseStackEnv nameKey valueKey raw = inr env
    ↔ Unmarshal_StackEnvVar nameKey valueKey raw = inr env.
Proof.
  intros Hname Hvalue raw env Hraw. unfold parseStackEnv. rewrite Hraw.
  destruct (Unmarshal_StackEnvVar nameKey valueKey raw) as [e1|env'] eqn:Eprimary.
  - split; [|done]. unfold parseStackEnv_alt.
    destruct (Unmarshal_stackEnvEntryAlt raw) as [|alt] eqn:Ealt; [done|].
    exfalso. revert Eprimary Ealt.
    unfold Unmarshal_StackEnvVar, Unmarshal_stackEnvEntryAlt.
    pose proof (Unmarshal_keys nameKey valueKey Hname Hvalue
                  "models.StackEnvVar" "client.stackEnvEntryAlt" raw) as H.
    by destruct (Json.Unmarshal nameKey valueKey _ raw),
                (Json.Unmarshal "Name" "Value" _ raw).
  - destruct raw as [|v|]; [done| |done].
    destruct v; try done.
    assert (∃ l, env' = Slice l) as [l ->].
    { revert Eprimary. unfold Unmarshal_StackEnvVar. cbn [Json.Unmarshal].
      destruct (Json.decodeEntries _ _ _ _); [done|]. intros [= <-]. cbn. eauto. }
    pose proof (parseStackEnv_primary nameKey valueKey Hname Hvalue _ _ Eprimary) as H.
    rewrite parseStackEnv_array, Eprimary in H. by rewrite H.
Qed.

Lemma parseStackEnv_is_primary_witness :
  parseStackEnv "name" "value" (RawJSON (JArray [JObject [("Value", JNull)]]))
  = inr (Slice [envVar "" ""]).
Proof.
  apply (parseStackEnv_is_primary "name" "value" eq_refl eq_refl); reflexivity.
Defined.

End CodecMore.

(** ** Fallback classifier *)

Section ClassifierMore.
Import StringFacts.

Lemma numeric_char_facts c :
  numeric_char c → is_ascii c ∧ GoStrings.ascii_lower c = c ∧ c ≠ "e"%char.
Proof.
  unfold numeric_char. intros H.
  repeat (apply elem_of_cons in H as [->|H]; [by vm_compute|]).
  by apply elem_of_nil in H.
Qed.

Lemma numeric_string_of_uint d : numeric (NilEmpty.string_of_uint d).
Proof.
  induction d; cbn; [done|..]; (split; [|done]); unfold numeric_char; set_solver.
Qed.

Lemma numeric_Itoa n : numeric (GoStrings.Itoa n).
Proof.
  unfold GoStrings.Itoa, NilZero.string_of_int, NilZero.string_of_uint.
  destruct (Z.to_int n) as [d|d].
  - destruct d; try apply numeric_string_of_uint.
    cbn. split; [|done]. unfold numeric_char. set_solver.
  - cbn [numeric]. split; [unfold numeric_char; set_solver|].
    destruct d; try apply numeric_string_of_uint.
    cbn. split; [|done]. unfold numeric_char. set_solver.
Qed.

Lemma numeric_all_ascii d : numeric d → all_ascii d.
Proof.
  induction d as [|c r IH]; [done|]. intros [Hc Hr].
  split; [by apply numeric_char_facts | by apply IH].
Qed.

Lemma numeric_foldName d : numeric d → Json.foldName d = d.
Proof.
  induction d as [|c r IH]; [done|]. intros [Hc Hr]. cbn [Json.foldName].
  rewrite IH by done. by destruct (numeric_char_facts c Hc) as (_ & -> & _).
Qed.

Lemma all_ascii_app a b : all_ascii a → all_ascii b → all_ascii (a +:+ b).
Proof.
  induction a as [|c r IH]; [done|]. intros [Hc Hr] Hb.
  rewrite append_cons. split; [done|by apply IH].
Qed.

Lemma foldName_app a b : Json.foldName (a +:+ b) = Json.foldName a +:+ Json.foldName b.
Proof.
  induction a as [|c r IH]; [done|].
  rewrite append_cons. cbn [Json.foldName]. by rewrite IH, append_cons.
Qed.

Lemma append_assoc a b c : (a +:+ b) +:+ c = a +:+ b +:+ c.
Proof.
  induction a as [|x r IH]; [done|]. by rewrite !append_cons, IH.
Qed.

Lemma prefix_other_head c r m0 m :
  c ≠ m0 → String.prefix (String m0 m) (String c r) = false.
Proof. intros Hne. cbn. destruct (ascii_dec m0 c); [by subst|done]. Qed.

(** Digits do not start a marker. *)
Lemma Contains_numeric d x m :
  numeric d →
  GoStrings.Contains (d +:+ x) (String "e" m) = GoStrings.Contains x (String "e" m).
Proof.
  induction d as [|c r IH]; [done|]. intros [Hc Hr].
  rewrite append_cons, Contains_cons_no_prefix; [by apply IH|].
  apply prefix_other_head. by apply numeric_char_facts.
Qed.

Lemma Contains_status_text d x sub :
  numeric d → sub = "edgestackupdate" ∨ sub = "edge stack" →
  GoStrings.Contains ("api returned status " +:+ d +:+ x) sub = GoStrings.Contains x sub.
Proof.
  intros Hd [->| ->];
    repeat (rewrite append_cons, Contains_cons_no_prefix by reflexivity);
    rewrite append_nil; by apply Contains_numeric.
Qed.

Lemma Contains_colon x sub :
  sub = "edgestackupdate" ∨ sub = "edge stack" →
  GoStrings.Contains (": " +:+ x) sub = GoStrings.Contains x sub.
Proof.
  intros [->| ->];
    repeat (rewrite append_cons, Contains_cons_no_prefix by reflexivity);
    by rewrite append_nil.
Qed.

(** The text of a status error holds a marker only where its body does. *)
Lemma isEdgeStackErrorMessage_status statusCode body :
  isEdgeStackErrorMessage (Error (apiStatusError statusCode body))
  = isEdgeStackErrorMessage body.
Proof.
  pose proof (numeric_Itoa statusCode) as Hd.
  unfold Error, isEdgeStackErrorMessage.
  destruct (String.eqb_spec body "") as [->|_].
  - rewrite <- (append_nil_r (_ +:+ GoStrings.Itoa statusCode)), append_assoc.
    rewrite <- append_assoc.
    rewrite ToLower_all_ascii
      by (apply all_ascii_app; [by vm_compute | by apply numeric_all_ascii]).
    rewrite foldName_app, (numeric_foldName _ Hd), append_assoc.
    change (Json.foldName "api returned status ") with "api returned status ".
    by rewrite !Contains_status_text by auto.
  - rewrite <- !append_assoc.
    rewrite ToLower_all_ascii.
    2:{ repeat apply all_ascii_app; try by vm_compute. by apply numeric_all_ascii. }
    rewrite !foldName_app, (numeric_foldName _ Hd), !append_assoc.
    change (Json.foldName "api returned status ") with "api returned status ".
    change (Json.foldName ": ") with ": ".
    by rewrite !Contains_status_text, !Contains_colon by auto.
Qed.

(** X9.  A bare status error is sent to the edge path exactly when its
    code is 404 or its body holds a marker: the words around code and
    body in its text never count. *)
Theorem shouldFallbackToEdge_status statusCode body :
  shouldFallbackToEdge (apiStatusError statusCode body)
  = (statusCode =? 404)%Z || isEdgeStackErrorMessage body.
Proof.
  unfold shouldFallbackToEdge. cbn [errors_As].
  rewrite isEdgeStackErrorMessage_status. unfold StatusNotFound.
  destruct (statusCode =? 404)%Z; [done|].
  by destruct (isEdgeStackErrorMessage body).
Qed.

Lemma ToLower_ascii s : all_ascii s → GoStrings.ToLower s = Json.foldName s.
Proof.
  intros Hs. rewrite <- (append_nil_r s) at 1.
  by rewrite ToLower_all_ascii, ToLower_1_nil, append_nil_r.
Qed.

(** X10.  Two ASCII texts that differ in letter case only are classified
    alike, as messages and as errors. *)
Theorem isEdgeStackErrorMessage_case s t :
  all_ascii s → all_ascii t → Json.foldName s = Json.foldName t →
  isEdgeStackErrorMessage s = isEdgeStackErrorMessage t
  ∧ shouldFallbackToEdge (errorString s) = shouldFallbackToEdge (errorString t).
Proof.
  intros Hs Ht Hfold.
  assert (isEdgeStackErrorMessage s = isEdgeStackErrorMessage t) as H.
  { unfold isEdgeStackErrorMessage. by rewrite !ToLower_ascii, Hfold. }
  split; [done|]. unfold shouldFallbackToEdge. by cbn [errors_As Error].
Qed.

Lemma isEdgeStackErrorMessage_case_witness :
  isEdgeStackErrorMessage "EdgeStackUpdate failed"
  = isEdgeStackErrorMessage "EDGESTACKUPDATE FAILED".
Proof.
  apply (isEdgeStackErrorMessage_case "EdgeStackUpdate failed" "EDGESTACKUPDATE FAILED");
    by vm_compute.
Defined.

End ClassifierMore.

(** ** The classifier on wrapped errors *)

Section ClassifierWrap.
Import StringFacts GoStrings.

Lemma ascii_lower_no_ascii c : ¬ is_ascii c → ascii_lower c = c.
Proof.
  unfold ascii_lower, is_ascii. intros H.
  destruct ((65 <=? N_of_ascii c)%N && (N_of_ascii c <=? 90)%N) eqn:E; [|done].
  apply andb_true_iff in E as [_ E]. apply N.leb_le in E. lia.
Qed.

Lemma is_dotted_I_true c c1 : is_dotted_I c c1 = true → c = "196"%char ∧ c1 = "176"%char.
Proof.
  unfold is_dotted_I. intros [H1 H2]%andb_true_iff.
  by apply Ascii.eqb_eq in H1, H2.
Qed.

Lemma is_kelvin_true c c1 c2 :
  is_kelvin c c1 c2 = true → c = "226"%char ∧ c1 = "132"%char ∧ c2 = "170"%char.
Proof.
  unfold is_kelvin. intros [[H1 H2]%andb_true_iff H3]%andb_true_iff.
  by apply Ascii.eqb_eq in H1, H2, H3.
Qed.

(** A byte that starts neither of the two runes is lowered on its own. *)
Lemma ToLower_plain c r :
  c ≠ "196"%char → c ≠ "226"%char →
  ToLower (String c r) = String (ascii_lower c) (ToLower r).
Proof.
  intros H1 H2.
  assert (∀ c1, is_dotted_I c c1 = false) as HD.
  { intros c1. destruct (is_dotted_I c c1) eqn:E; [|done].
    by apply is_dotted_I_true in E as [? _]. }
  assert (∀ c1 c2, is_kelvin c c1 c2 = false) as HK.
  { intros c1 c2. destruct (is_kelvin c c1 c2) eqn:E; [|done].
    by apply is_kelvin_true in E as [? _]. }
  destruct r as [|c1 [|c2 r2]]; [done|..].
  - by rewrite ToLower_2, HD.
  - by rewrite ToLower_3, HD, HK.
Qed.

Lemma Contains_nil n : n ≠ "" → Contains "" n = false.
Proof. by destruct n. Qed.

Lemma Contains_cons_r c s n : Contains s n = true → Contains (String c s) n = true.
Proof. intros H. cbn [Contains]. rewrite H. apply orb_true_r. Qed.

Lemma Contains_app_r x s n : Contains s n = true → Contains (x +:+ s) n = true.
Proof.
  intros H. induction x as [|c r IH]; [done|].
  rewrite append_cons. by apply Contains_cons_r.
Qed.

Lemma prefix_app_l n x y : String.prefix n x = true → String.prefix n (x +:+ y) = true.
Proof.
  revert x. induction n as [|a n IH]; intros x H.
  { by destruct (x +:+ y). }
  destruct x as [|c x]; [done|]. rewrite append_cons. cbn in *.
  destruct (ascii_dec a c); [by apply IH|done].
Qed.

Lemma Contains_app_l x y n : Contains x n = true → Contains (x +:+ y) n = true.
Proof.
  induction x as [|c r IH].
  - cbn [Contains]. rewrite orb_false_r. intros H.
    apply Contains_prefix. by apply (prefix_app_l n "" y).
  - rewrite append_cons. cbn [Contains]. intros [H|H]%orb_true_iff.
    + apply orb_true_iff. left. by apply (prefix_app_l n (String c r) y).
    + apply orb_true_iff. right. by apply IH.
Qed.

(** An ASCII text found before bytes outside ASCII ends before them. *)
Lemma prefix_before_no_ascii tail : no_ascii tail → ∀ x n,
  all_ascii n → String.prefix n (x +:+ tail) = true → String.prefix n x = true.
Proof.
  intros Ht. induction x as [|c x IH]; intros n Hn H.
  - rewrite append_nil in H. destruct n as [|a n]; [done|].
    destruct tail as [|t tail]; [done|]. cbn in H.
    destruct (ascii_dec a t) as [->|]; [|done].
    destruct Hn as [Ha _], Ht as [Hna _]. done.
  - destruct n as [|a n]; [done|]. rewrite append_cons in H. cbn in *.
    destruct (ascii_dec a c); [|done]. apply IH; [by destruct Hn|done].
Qed.

Lemma Contains_before_no_ascii tail x n :
  no_ascii tail → all_ascii n → n ≠ "" →
  Contains (x +:+ tail) n = true → Contains x n = true.
Proof.
  intros Ht Hn Hne. induction x as [|c x IH].
  - rewrite append_nil. intros H. exfalso.
    induction tail as [|t tail IHt]; [by rewrite Contains_nil in H|].
    destruct Ht as [Hna Ht]. cbn [Contains] in H.
    apply orb_true_iff in H as [H|H]; [|by apply IHt].
    destruct n as [|a n]; [done|]. cbn in H.
    destruct (ascii_dec a t) as [->|]; [|done]. by destruct Hn.
  - rewrite append_cons. cbn [Contains]. intros [H|H]%orb_true_iff.
    + apply orb_true_iff. left.
      by apply (prefix_before_no_ascii tail Ht (String c x) n).
    + apply orb_true_iff. right. by apply IH.
Qed.

(** What follows a text changes its lowering only where the text ends
    in the beginning of a rune, which lowers to bytes outside ASCII. *)
Lemma ToLower_app_cases_fuel k : ∀ m post, (String.length m ≤ k)%nat →
  ∃ x tail y, ToLower m = x +:+ tail ∧ ToLower (m +:+ post) = x +:+ y ∧ no_ascii tail.
Proof.
  induction k as [|k IH]; intros m post Hk.
  { destruct m; [|simpl in Hk; lia]. by exists "", "", (ToLower post). }
  destruct post as [|a s].
  { exists (ToLower m), "", "". by rewrite !append_nil_r. }
  destruct m as [|c [|c1 [|c2 r2]]].
  - by exists "", "", (ToLower (String a s)).
  - (* one byte *)
    destruct (decide (c = "196"%char)) as [->|H1].
    { exists "", (String "196" ""), (ToLower (String "196" (String a s))).
      repeat split; by vm_compute. }
    destruct (decide (c = "226"%char)) as [->|H2].
    { exists "", (String "226" ""), (ToLower (String "226" (String a s))).
      repeat split; by vm_compute. }
    exists (String (ascii_lower c) ""), "", (ToLower (String a s)).
    split; [done|]. split; [|done].
    by rewrite !append_cons, !append_nil, (ToLower_plain c).
  - (* two bytes *)
    rewrite !append_cons, append_nil, ToLower_3, ToLower_2.
    destruct (is_dotted_I c c1) eqn:E.
    { by exists (String "i" ""), "", (ToLower (String a s)). }
    destruct (is_kelvin c c1 a) eqn:K.
    { apply is_kelvin_true in K as (-> & -> & ->).
      exists "", (String "226" (String "132" "")), (String "k" (ToLower s)).
      repeat split; by vm_compute. }
    destruct (IH (String c1 "") (String a s)) as (x & tail & y & H1 & H2 & H3).
    { simpl in *. lia. }
    exists (String (ascii_lower c) x), tail, y.
    rewrite append_cons, append_nil in H2. by rewrite H1, H2, !append_cons.
  - (* three bytes or more *)
    rewrite !append_cons, !ToLower_3.
    destruct (is_dotted_I c c1) eqn:E.
    { destruct (IH (String c2 r2) (String a s)) as (x & tail & y & H1 & H2 & H3).
      { simpl in *. lia. }
      exists (String "i" x), tail, y.
      rewrite append_cons in H2. by rewrite H1, H2, !append_cons. }
    destruct (is_kelvin c c1 c2) eqn:K.
    { destruct (IH r2 (String a s)) as (x & tail & y & H1 & H2 & H3).
      { simpl in *. lia. }
      exists (String "k" x), tail, y. by rewrite H1, H2, !append_cons. }
    destruct (IH (String c1 (String c2 r2)) (String a s))
      as (x & tail & y & H1 & H2 & H3).
    { simpl in *. lia. }
    exists (String (ascii_lower c) x), tail, y.
    rewrite !append_cons in H2. by rewrite H1, H2, !append_cons.
Qed.

Lemma Contains_ToLower_app_l m post n :
  all_ascii n → n ≠ "" →
  Contains (ToLower m) n = true → Contains (ToLower (m +:+ post)) n = true.
Proof.
  intros Hn Hne H.
  destruct (ToLower_app_cases_fuel (String.length m) m post)
    as (x & tail & y & H1 & H2 & H3); [done|].
  rewrite H2. apply Contains_app_l.
  apply (Contains_before_no_ascii tail); [done..|]. by rewrite <- H1.
Qed.

(** The second and third byte of the two runes start nothing and are
    not part of an ASCII text. *)
Lemma Contains_ToLower_skip c s n :
  ¬ is_ascii c → c ≠ "196"%char → c ≠ "226"%char → starts_ascii n → n ≠ "" →
  Contains (ToLower (String c s)) n = true → Contains (ToLower s) n = true.
Proof.
  intros Hc H1 H2 Hn Hne. rewrite ToLower_plain, ascii_lower_no_ascii by done.
  destruct n as [|a n]; [done|].
  rewrite Contains_cons_no_prefix; [done|].
  apply prefix_other_head. intros ->. done.
Qed.

Lemma Contains_ToLower_app_r_fuel k n : starts_ascii n → n ≠ "" →
  ∀ pre m, (String.length pre ≤ k)%nat →
  Contains (ToLower m) n = true → Contains (ToLower (pre +:+ m)) n = true.
Proof.
  intros Hn Hne. induction k as [|k IH]; intros pre m Hk H.
  { destruct pre; [done|simpl in Hk; lia]. }
  assert (∀ c s, c = "176"%char ∨ c = "132"%char ∨ c = "170"%char →
    Contains (ToLower (String c s)) n = true → Contains (ToLower s) n = true) as Hskip.
  { intros c s Hc. apply Contains_ToLower_skip; try done;
      destruct Hc as [->|[->| ->]]; by vm_compute. }
  destruct pre as [|c [|c1 [|c2 r2]]]; [done|..].
  - (* one byte *)
    rewrite append_cons, append_nil.
    destruct m as [|b [|b1 m2]].
    + by rewrite ToLower_1_nil, Contains_nil in H.
    + rewrite ToLower_2. destruct (is_dotted_I c b) eqn:E.
      * apply is_dotted_I_true in E as [-> ->].
        apply Contains_cons_r. apply (Hskip "176"%char ""); auto.
      * by apply Contains_cons_r.
    + rewrite ToLower_3. destruct (is_dotted_I c b) eqn:E.
      { apply is_dotted_I_true in E as [-> ->].
        apply Contains_cons_r. apply (Hskip "176"%char); auto. }
      destruct (is_kelvin c b b1) eqn:K.
      { apply is_kelvin_true in K as (-> & -> & ->).
        apply Contains_cons_r. apply (Hskip "170"%char); [auto|].
        apply (Hskip "132"%char); auto. }
      by apply Contains_cons_r.
  - (* two bytes *)
    rewrite !append_cons, append_nil.
    destruct m as [|b m1].
    + by rewrite ToLower_1_nil, Contains_nil in H.
    + rewrite ToLower_3. destruct (is_dotted_I c c1) eqn:E.
      { by apply Contains_cons_r. }
      destruct (is_kelvin c c1 b) eqn:K.
      { apply is_kelvin_true in K as (-> & -> & ->).
        apply Contains_cons_r. apply (Hskip "170"%char); auto. }
      apply Contains_cons_r.
      apply (IH (String c1 "") (String b m1)); [simpl in *; lia|done].
  - (* three bytes or more *)
    rewrite !append_cons, ToLower_3.
    destruct (is_dotted_I c c1) eqn:E.
    { apply Contains_cons_r.
      apply (IH (String c2 r2) m); [simpl in *; lia|done]. }
    destruct (is_kelvin c c1 c2) eqn:K.
    { apply Contains_cons_r. apply (IH r2 m); [simpl in *; lia|done]. }
    apply Contains_cons_r.
    apply (IH (String c1 (String c2 r2)) m); [simpl in *; lia|done].
Qed.

(** An ASCII text found in the lowering of a message is found in the
    lowering of every text the message is part of. *)
Lemma Contains_ToLower_wrap pre m post n :
  all_ascii n → n ≠ "" →
  Contains (ToLower m) n = true → Contains (ToLower (pre +:+ m +:+ post)) n = true.
Proof.
  intros Hn Hne H.
  apply (Contains_ToLower_app_r_fuel (String.length pre)); [|done..|].
  { destruct n; [done|]. by destruct Hn. }
  by apply Contains_ToLower_app_l.
Qed.

Lemma isEdgeStackErrorMessage_wrap pre m post :
  isEdgeStackErrorMessage m = true → isEdgeStackErrorMessage (pre +:+ m +:+ post) = true.
Proof.
  unfold isEdgeStackErrorMessage. intros [H|H]%orb_true_iff; apply orb_true_iff;
    [left|right]; (apply Contains_ToLower_wrap; [by vm_compute|done|done]).
Qed.

(** X17.  Wrapping an error with [%w], whatever the words around it,
    never takes it off the edge path: the status error in it is still
    found, and a marker in its text is still in the longer text. *)
Theorem shouldFallbackToEdge_wrapped pre err post :
  shouldFallbackToEdge err = true →
  shouldFallbackToEdge (Errorf_w pre err post) = true.
Proof.
  unfold shouldFallbackToEdge, Errorf_w. cbn [errors_As Error].
  destruct (errors_As err) as [[statusCode body]|].
  - destruct (statusCode =? StatusNotFound)%Z; [done|].
    destruct (isEdgeStackErrorMessage body); [done|].
    apply isEdgeStackErrorMessage_wrap.
  - apply isEdgeStackErrorMessage_wrap.
Qed.

Lemma shouldFallbackToEdge_wrapped_witness :
  shouldFallbackToEdge
    (Errorf_w "failed to update stack: " (errorString "not an Edge Stack") "") = true.
Proof. apply shouldFallbackToEdge_wrapped. by vm_compute. Defined.

End ClassifierWrap.

(** ** The façade *)

Section FacadeMore.

Variables (nameKey valueKey : string) (net : Network) (formatRFC3339 : Z → string).

Lemma getRegularStackDetailsHTTP_events c id tr :
  one_exchange tr (getRegularStackDetailsHTTP nameKey valueKey net c id tr).2
    (newRequest c "GET" (apiBase c +:+ "/api/stacks/" +:+ GoStrings.Itoa id)) None.
Proof.
  unfold getRegularStackDetailsHTTP, one_exchange.
  destruct (stackDetailsEndpoint net _) as [err|err|StatusCode Body];
    unfold bind, ret, emit; cbn beta iota; [by left | by right |].
  destruct (negb (StatusCode =? StatusOK)%Z); [by right|].
  destruct Body as [|? [|response]]; try by right.
  destruct (parseStackEnv _ _ _); by right.
Qed.

Lemma updateRegularStackHTTP_events c id endpointId file env tr :
  one_exchange tr (updateRegularStackHTTP net c id endpointId file env tr).2
    (updateRequest c id endpointId) (Some (updateBody file env)).
Proof.
  unfold updateRegularStackHTTP, one_exchange, updateRequest, updateBody.
  destruct (stackUpdateEndpoint net _ _) as [err|err|StatusCode Body];
    unfold bind, ret, emit; cbn beta iota; [by left | by right |].
  destruct (_ || _); by right.
Qed.


Lemma updateEdgeFallback_unfold c id file environmentGroupIds envOverrides context err tr :
  updateEdgeFallback c id file environmentGroupIds envOverrides context err tr
  = if (0 <? len envOverrides)%Z then
      (Some (errorString "stack env overrides are not supported for edge stacks"), tr)
    else
      (match UpdateEdgeStack (cli c) id file (IntToInt64Slice environmentGroupIds) with
       | Some edgeErr =>
           Some (Errorf_w context err
                   (" (edge stack also failed: " +:+ Error edgeErr +:+ ")"))
       | None => None
       end,
       tr ++ [SDK_UpdateEdgeStack id file (IntToInt64Slice environmentGroupIds)]).
Proof.
  unfold updateEdgeFallback. destruct (0 <? len envOverrides)%Z; [done|].
  unfold bind, ret, emit. cbn beta iota. by destruct (UpdateEdgeStack _ _ _ _).
Qed.

Lemma UpdateStack_configured c id file environmentGroupIds envOverrides :
  serverURL c ≠ "" → token c ≠ "" →
  run (UpdateStack nameKey valueKey net c id file environmentGroupIds envOverrides)
  = afterRegularPath c id file environmentGroupIds envOverrides
      (run (regularPath nameKey valueKey net c id file envOverrides)).1
      (run (regularPath nameKey valueKey net c id file envOverrides)).2.
Proof.
  intros Hurl Htoken. unfold run, UpdateStack, regularPath. rewrite configured by done.
  unfold bind, ret, afterRegularPath.
  destruct (getRegularStackDetailsHTTP nameKey valueKey net c id [])
    as [[err|[endpointId env]] tr1]; cbn [fst snd].
  { by destruct (shouldFallbackToEdge err). }
  destruct (updateRegularStackHTTP net c id endpointId file _ tr1) as [[err|] tr2];
    cbn [fst snd]; [|done].
  by destruct (shouldFallbackToEdge err).
Qed.

Lemma regularPath_trace c id file envOverrides :
  http_only (run (regularPath nameKey valueKey net c id file envOverrides)).2
  ∧ (length (run (regularPath nameKey valueKey net c id file envOverrides)).2 ≤ 2)%nat.
Proof.
  unfold run, regularPath, bind, ret.
  pose proof (getRegularStackDetailsHTTP_events c id []) as H1.
  destruct (getRegularStackDetailsHTTP nameKey valueKey net c id [])
    as [[err|[endpointId env]] tr1]; cbn [snd] in H1.
  - cbn [snd]. destruct H1 as [->| ->]; split; cbn; try lia;
      repeat constructor.
  - pose proof (updateRegularStackHTTP_events c id endpointId file
                  (mergeEnvOverrides env envOverrides) tr1) as H2.
    destruct (updateRegularStackHTTP net c id endpointId file _ tr1) as [e tr2].
    cbn [snd] in *.
    destruct H1 as [->| ->], H2 as [->| ->]; split; cbn; try lia; repeat constructor.
Qed.




Lemma len_not_pos {A} (s : slice A) : (0 <? len s)%Z = false ↔ elems s = [].
Proof.
  destruct (0 <? len s)%Z eqn:E.
  - apply len_pos in E. split; [done|]. intros H. by destruct E.
  - split; [|done]. intros _. destruct (elems s) eqn:El; [done|].
    assert ((0 <? len s)%Z = true); [|congruence]. apply len_pos. by rewrite El.
Qed.

(** X11.  With server URL and token set, [UpdateStack] treats a failure
    of the fetch and a failure of the update by one rule.  The regular
    path makes at most two exchanges and no call of the edge SDK.  When
    it succeeds, that is the answer.  When it fails with an error the
    classifier keeps, that error is answered, wrapped, and the edge SDK
    is not called.  When the classifier sends it to the edge path,
    overrides are refused without a call, and without overrides the
    edge-update primitive is called once and decides the answer. *)
Theorem UpdateStack_after_regular_path
    c id file environmentGroupIds envOverrides outcome tr :
  serverURL c ≠ "" → token c ≠ "" →
  run (regularPath nameKey valueKey net c id file envOverrides) = (outcome, tr) →
  http_only tr ∧ (length tr ≤ 2)%nat
  ∧ match outcome with
    | None =>
        run (UpdateStack nameKey valueKey net c id file environmentGroupIds envOverrides)
        = (None, tr)
    | Some (context, err) =>
        (shouldFallbackToEdge err = false →
           run (UpdateStack nameKey valueKey net c id file environmentGroupIds envOverrides)
           = (Some (Errorf_w context err ""), tr))
        ∧ (shouldFallbackToEdge err = true → elems envOverrides ≠ [] →
           run (UpdateStack nameKey valueKey net c id file environmentGroupIds envOverrides)
           = (Some (errorString "stack env overrides are not supported for edge stacks"),
              tr))
        ∧ (shouldFallbackToEdge err = true → elems envOverrides = [] →
           run (UpdateStack nameKey valueKey net c id file environmentGroupIds envOverrides)
           = (match UpdateEdgeStack (cli c) id file (IntToInt64Slice environmentGroupIds) with
              | Some edgeErr =>
                  Some (Errorf_w context err
                          (" (edge stack also failed: " +:+ Error edgeErr +:+ ")"))
              | None => None
              end,
              tr ++ [SDK_UpdateEdgeStack id file (IntToInt64Slice environmentGroupIds)]))
    end.
Proof.
  intros Hurl Htoken Hpath.
  pose proof (regularPath_trace c id file envOverrides) as [Htr Hlen].
  rewrite (UpdateStack_configured _ _ _ _ _ Hurl Htoken).
  rewrite Hpath in *. cbn [fst snd] in *. split; [done|]. split; [done|].
  destruct outcome as [[context err]|]; [|done].
  unfold afterRegularPath. rewrite updateEdgeFallback_unfold.
  split; [by intros ->|]. split.
  - intros -> Hover. by rewrite (proj2 (len_pos envOverrides)).
  - intros -> Hnil. by rewrite (proj2 (len_not_pos envOverrides)).
Qed.




Lemma getRegularStackFileHTTP_events c id tr :
  one_exchange tr (getRegularStackFileHTTP net c id tr).2
    (newRequest c "GET" (apiBase c +:+ "/api/stacks/" +:+ GoStrings.Itoa id +:+ "/file")) None.
Proof.
  unfold getRegularStackFileHTTP, one_exchange.
  destruct (stackFileEndpoint net _) as [err|err|StatusCode Body];
    unfold bind, ret, emit; cbn beta iota; [by left | by right |].
  destruct (negb (StatusCode =? StatusOK)%Z); [by right|].
  destruct Body as [|? [|content]]; by right.
Qed.

Lemma one_exchange_shape tr' req payload :
  one_exchange [] tr' req payload → http_only tr' ∧ (length tr' ≤ 1)%nat.
Proof. intros [->| ->]; split; cbn; try lia; repeat constructor. Qed.

Lemma GetStackFile_unfold c id r tr1 :
  run (getRegularStackFileHTTP net c id) = (r, tr1) →
  run (GetStackFile net c id)
  = match r with
    | inr file =>
        if negb (String.eqb file "") then (inr file, tr1)
        else getEdgeStackFile c id None tr1
    | inl err => getEdgeStackFile c id (Some err) tr1
    end.
Proof.
  unfold run, GetStackFile, bind. intros ->.
  destruct r as [|file]; [done|]. by destruct (negb (String.eqb file "")).
Qed.

Lemma getEdgeStackFile_unfold c id regularErr tr :
  getEdgeStackFile c id regularErr tr
  = (match GetEdgeStackFile (cli c) id with
     | inr edgeFile => inr edgeFile
     | inl edgeErr =>
         match regularErr with
         | Some err =>
             inl (Errorf_w "failed to get regular stack file: " err
                    (" (edge stack also failed: " +:+ Error edgeErr +:+ ")"))
         | None => inl (Errorf_w "failed to get edge stack file: " edgeErr "")
         end
     end,
     tr ++ [SDK_GetEdgeStackFile id]).
Proof.
  unfold getEdgeStackFile, bind, ret, emit. cbn beta iota.
  destruct (GetEdgeStackFile (cli c) id); [|done]. by destruct regularErr.
Qed.



(** X15.  [GetStackFile] asks the regular file first.  Content that is
    not empty is the answer, and the edge SDK is not asked.  After empty
    content or a failure the edge file is asked and is the answer; when
    that fails, its error is answered alone after empty content, and
    after a failure of the regular path in an error that wraps that
    failure and whose text gives both. *)
Theorem GetStackFile_spec c id r tr1 :
  run (getRegularStackFileHTTP net c id) = (r, tr1) →
  http_only tr1
  ∧ match r with
    | inr file =>
        (file ≠ "" → run (GetStackFile net c id) = (inr file, tr1))
        ∧ (file = "" →
           run (GetStackFile net c id)
           = (match GetEdgeStackFile (cli c) id with
              | inr edgeFile => inr edgeFile
              | inl edgeErr => inl (Errorf_w "failed to get edge stack file: " edgeErr "")
              end,
              tr1 ++ [SDK_GetEdgeStackFile id]))
    | inl err =>
        run (GetStackFile net c id)
        = (match GetEdgeStackFile (cli c) id with
           | inr edgeFile => inr edgeFile
           | inl edgeErr =>
               inl (wrapError ("failed to get regular stack file: " +:+ Error err
                               +:+ " (edge stack also failed: " +:+ Error edgeErr +:+ ")")
                              err)
           end,
           tr1 ++ [SDK_GetEdgeStackFile id])
    end.
Proof.
  intros Hfile. split.
  { pose proof (getRegularStackFileHTTP_events c id []) as H%one_exchange_shape.
    unfold run in Hfile. rewrite Hfile in H. apply H. }
  rewrite (GetStackFile_unfold _ _ _ _ Hfile).
  destruct r as [err|file]; rewrite ?getEdgeStackFile_unfold.
  - by destruct (GetEdgeStackFile (cli c) id).
  - split.
    + intros Hne%String.eqb_neq. by rewrite Hne.
    + intros ->. cbn [String.eqb negb].
      by destruct (GetEdgeStackFile (cli c) id).
Qed.

End FacadeMore.
Lemma UpdateStack_after_regular_path_witness :
  run (UpdateStack "name" "value" (testServer 200 403 "access denied")
         (testClient "portainer.local" "test-token") 42 "version: '3'" (Slice [1]) Nil)
  = (Some (Errorf_w "failed to update regular stack: "
             (apiStatusError 403 "access denied") ""),
     [HTTP {| Method := "GET"; URL := "https://portainer.local/api/stacks/42";
              APIKey := "test-token"; InsecureSkipVerify := false |} None;
      HTTP {| Method := "PUT";
              URL := "https://portainer.local/api/stacks/42?endpointId=21";
              APIKey := "test-token"; InsecureSkipVerify := false |}
           (Some {| StackFileContent := "version: '3'"; Prune := false; PullImage := false;
                    Env := Slice [envVar "DYNU_TOKEN" "token"] |})]).
Proof.
  edestruct (UpdateStack_after_regular_path "name" "value" (testServer 200 403 "access denied")
               (testClient "portainer.local" "test-token") 42 "version: '3'" (Slice [1]) Nil)
    as (_ & _ & H); [by vm_compute | by vm_compute | vm_compute; reflexivity |].
  cbn beta iota in H. destruct H as [H _]. apply H. by vm_compute.
Defined.



Lemma GetStackFile_spec_witness :
  ∃ tr,
    run (GetStackFile (testServer 200 200 "") (testClient "portainer.local" "test-token") 42)
    = (inr "version: '3'", tr)
    ∧ http_only tr.
Proof.
  edestruct (GetStackFile_spec (testServer 200 200 "")
               (testClient "portainer.local" "test-token") 42) as [Htr Hrun].
  { vm_compute. reflexivity. }
  cbn beta iota in Hrun. destruct Hrun as [Hrun _].
  eexists. split; [apply Hrun; by vm_compute | exact Htr].
Defined.

(** ** The address of the REST surface *)

Section ApiBase.
Import StringFacts.

Lemma eqb_slash_long c r : r ≠ "" → String.eqb (String c r) "/" = false.
Proof.
  intros Hr. apply String.eqb_neq. intros [= _ ?]. done.
Qed.

Lemma TrimSuffix_slash s : GoStrings.TrimSuffix (s +:+ "/") "/" = s.
Proof.
  induction s as [|c r IH]; [done|].
  rewrite append_cons. cbn [GoStrings.TrimSuffix].
  rewrite eqb_slash_long by (by destruct r). by rewrite IH.
Qed.

Lemma TrimSuffix_no_slash s : ¬ ends_with_slash s → GoStrings.TrimSuffix s "/" = s.
Proof.
  induction s as [|c r IH]; [done|]. intros Hs.
  cbn [GoStrings.TrimSuffix]. destruct (String.eqb_spec (String c r) "/") as [E|_].
  { destruct Hs. exists "". by rewrite E. }
  rewrite IH; [done|]. intros [p ->]. apply Hs. exists (String c p). by rewrite append_cons.
Qed.

Lemma no_slash_by_trim s : GoStrings.TrimSuffix s "/" = s → ¬ ends_with_slash s.
Proof.
  intros H [p ->]. rewrite TrimSuffix_slash in H.
  induction p as [|c r IH]; [done|]. rewrite append_cons in H. injection H as H. auto.
Qed.

Lemma ends_with_slash_app p s : s ≠ "" → ends_with_slash (p +:+ s) → ends_with_slash s.
Proof.
  intros Hs. induction p as [|c r IH]; [done|].
  rewrite append_cons. intros [q Hq]. apply IH.
  destruct q as [|c' q'].
  - rewrite append_nil in Hq. injection Hq as _ Hq.
    destruct r; [by destruct s|done].
  - rewrite append_cons in Hq. injection Hq as _ Hq. by exists q'.
Qed.

Lemma prefix_app_r p s x : String.prefix p s = true → String.prefix p (s +:+ x) = true.
Proof.
  revert s. induction p as [|c r IH]; intros s; [by destruct (s +:+ x)|].
  destruct s as [|c' s']; [done|]. rewrite append_cons. cbn.
  destruct (ascii_dec c c'); [apply IH|done].
Qed.

(** X16.  The address the requests are built on.  A server URL with a
    scheme and no slash at its end is used as it is, and a host that is
    not empty and has no slash at its end gets [https://] put before it.
    One slash at the end of the server URL changes nothing.  An empty
    server URL gives [https:/], so that the stacks are asked from
    [https://api/stacks]. *)
Theorem apiBase_normalised c c' :
  (has_scheme (serverURL c) = true → ¬ ends_with_slash (serverURL c) →
     apiBase c = serverURL c)
  ∧ (has_scheme (serverURL c) = false → serverURL c ≠ "" →
     ¬ ends_with_slash (serverURL c) →
     apiBase c = "https://" +:+ serverURL c)
  ∧ (serverURL c' = serverURL c +:+ "/" →
     has_scheme (serverURL c') = has_scheme (serverURL c) →
     serverURL c ≠ "" → ¬ ends_with_slash (serverURL c) →
     apiBase c' = apiBase c)
  ∧ (serverURL c = "" → apiBase c +:+ "/api/stacks" = "https://api/stacks").
Proof.
  assert (∀ c0, apiBase c0
                = GoStrings.TrimSuffix
                    (if has_scheme (serverURL c0) then serverURL c0
                     else "https://" +:+ serverURL c0) "/") as Hbase.
  { intros c0. unfold apiBase, has_scheme.
    by destruct (GoStrings.HasPrefix (serverURL c0) "http://"),
                (GoStrings.HasPrefix (serverURL c0) "https://"). }
  assert (∀ c0, serverURL c0 ≠ "" → ¬ ends_with_slash (serverURL c0) →
                apiBase c0 = if has_scheme (serverURL c0) then serverURL c0
                             else "https://" +:+ serverURL c0) as Hplain.
  { intros c0 Hne Hs. rewrite Hbase. apply TrimSuffix_no_slash.
    destruct (has_scheme (serverURL c0)); [done|].
    intros H. by apply ends_with_slash_app in H. }
  split; [|split; [|split]].
  - intros Hscheme Hs. rewrite Hbase, Hscheme. by apply TrimSuffix_no_slash.
  - intros Hscheme Hne Hs. by rewrite Hplain, Hscheme.
  - intros Hurl Hscheme Hne Hs. rewrite (Hplain c) by done.
    rewrite (Hbase c'), Hscheme, Hurl.
    destruct (has_scheme (serverURL c)); [apply TrimSuffix_slash|].
    rewrite <- append_assoc. apply TrimSuffix_slash.
  - intros Hurl. rewrite Hbase, Hurl. reflexivity.
Qed.

Lemma apiBase_normalised_witness :
  apiBase (testClient "http://portainer.local:9000/" "t") = "http://portainer.local:9000"
  ∧ apiBase (testClient "portainer.local" "t") = "https://portainer.local".
Proof.
  destruct (apiBase_normalised (testClient "portainer.local" "t")
              (testClient "portainer.local" "t")) as (_ & Hhost & _).
  destruct (apiBase_normalised (testClient "http://portainer.local:9000" "t")
              (testClient "http://portainer.local:9000/" "t")) as (Hscheme & _ & Hslash & _).
  split.
  - rewrite Hslash; [apply Hscheme| | | |]; try reflexivity; try by vm_compute.
    all: apply no_slash_by_trim; reflexivity.
  - apply Hhost; try reflexivity; try by vm_compute.
    apply no_slash_by_trim; reflexivity.
Defined.

End ApiBase.

(** ** The tools over the façade *)

Section ToolFacts.
Import StringFacts MCPTools.

Lemma Itoa_inj a b : GoStrings.Itoa a = GoStrings.Itoa b → a = b.
Proof.
  assert (∀ n, NilZero.int_of_string (GoStrings.Itoa n) = Some (Z.to_int n)) as Hback.
  { intros n. unfold GoStrings.Itoa. apply NilZero.isi.
    - destruct n; [done| |done]. intros [= E]. by apply Unsigned.to_uint_nonnil in E.
    - destruct n; [done|done|]. intros [= E]. by apply Unsigned.to_uint_nonnil in E. }
  intros H. apply DecimalZ.to_int_inj.
  pose proof (Hback a) as Ha. rewrite H, Hback in Ha. congruence.
Qed.

Lemma append_inj_r p a b : p +:+ a = p +:+ b → a = b.
Proof.
  induction p as [|c r IH]; [done|]. rewrite !append_cons. intros [= E]. by apply IH.
Qed.

Lemma named_names l :
  Name <$> Spec.named l = filter (λ n, n ≠ "") (Name <$> l).
Proof.
  unfold Spec.named. induction l as [|e l IH]; [done|].
  rewrite fmap_cons, !filter_cons.
  destruct (decide (Name e ≠ "")); [by rewrite fmap_cons, IH|done].
Qed.

Lemma names_of_names l l' : Name <$> l = Name <$> l' → Spec.names l = Spec.names l'.
Proof. intros H. unfold Spec.names. by rewrite !named_names, H. Qed.

Lemma GetStackEnvNames_read nameKey valueKey net c id endpointId env :
  serverURL c ≠ "" → token c ≠ "" →
  (run (getRegularStackDetailsHTTP nameKey valueKey net c id)).1 = inr (endpointId, env) →
  (run (GetStackEnvNames nameKey valueKey net c id)).1
  = inr (Slice (Spec.names (elems env))).
Proof.
  intros Hurl%String.eqb_neq Htoken%String.eqb_neq.
  unfold run, GetStackEnvNames, bind, ret. rewrite Hurl, Htoken. cbn [orb].
  destruct (getRegularStackDetailsHTTP nameKey valueKey net c id []) as [r tr].
  cbn [fst]. intros ->. cbn [fst]. by rewrite envNames_spec.
Qed.

(** X18.  The tool that lists the names of a stack's variables tells
    nothing about their values: served by the façade, it answers the
    same for two servers whose stacks have the same names in their
    environments, whatever the values are. *)
Theorem tool_env_names_hide_values nameKey valueKey formatRFC3339 marshalNames
    net net' c c' parser id endpointId endpointId' env env' :
  serverURL c ≠ "" → token c ≠ "" → serverURL c' ≠ "" → token c' ≠ "" →
  MCP.GetInt parser "id" true = inr id →
  (run (getRegularStackDetailsHTTP nameKey valueKey net c id)).1 = inr (endpointId, env) →
  (run (getRegularStackDetailsHTTP nameKey valueKey net' c' id)).1
  = inr (endpointId', env') →
  Name <$> elems env = Name <$> elems env' →
  HandleGetStackEnvNames marshalNames
    (toolClient nameKey valueKey net formatRFC3339 c) parser
  = HandleGetStackEnvNames marshalNames
      (toolClient nameKey valueKey net' formatRFC3339 c') parser.
Proof.
  intros Hurl Htoken Hurl' Htoken' Hid Henv Henv' Hnames.
  unfold HandleGetStackEnvNames. rewrite Hid. cbn [toolClient cli_GetStackEnvNames].
  rewrite (GetStackEnvNames_read _ _ _ _ _ _ _ Hurl Htoken Henv).
  rewrite (GetStackEnvNames_read _ _ _ _ _ _ _ Hurl' Htoken' Henv').
  by rewrite (names_of_names _ _ Hnames).
Qed.

Lemma tool_env_names_hide_values_witness :
  HandleGetStackEnvNames (λ _, inr "names")
    (toolClient "name" "value"
       (testServerEnv (JArray [JObject [("Name", JString "TOKEN");
                                        ("Value", JString "first")]]))
       (λ _, "") (testClient "http://portainer.local" "t"))
    (testParser Nil)
  = HandleGetStackEnvNames (λ _, inr "names")
      (toolClient "name" "value"
         (testServerEnv (JArray [JObject [("Name", JString "TOKEN");
                                          ("Value", JString "second")]]))
         (λ _, "") (testClient "portainer.local/" "u"))
      (testParser Nil).
Proof.
  apply (tool_env_names_hide_values "name" "value" (λ _, "") (λ _, inr "names")
           _ _ _ _ _ 42 21 21
           (Slice [{| Name := "TOKEN"; Value := "first" |}])
           (Slice [{| Name := "TOKEN"; Value := "second" |}])); by vm_compute.
Defined.

(** X19.  The tool that creates a stack reports the ID [id] exactly
    when name, file and group IDs were accepted and the client, called
    with them, answered [id]: the number in the text is the ID of the
    stack that was made. *)
Theorem HandleCreateStack_reports_id client parser id :
  (HandleCreateStack client parser).1
  = MCP.NewToolResultText ("Stack created successfully with ID: " +:+ GoStrings.Itoa id)
  ↔ ∃ name file environmentGroupIds,
      MCP.GetString parser "name" true = inr name
      ∧ MCP.GetString parser "file" true = inr file
      ∧ MCP.GetArrayOfIntegers parser "environmentGroupIds" true = inr environmentGroupIds
      ∧ cli_CreateStack client name file environmentGroupIds = inr id
      ∧ (HandleCreateStack client parser).2
        = [Call_CreateStack name file environmentGroupIds].
Proof.
  unfold HandleCreateStack. split.
  - destruct (MCP.GetString parser "name" true) as [|name]; [done|].
    destruct (MCP.GetString parser "file" true) as [|file]; [done|].
    destruct (MCP.GetArrayOfIntegers parser "environmentGroupIds" true) as [|groups];
      [done|].
    destruct (cli_CreateStack client name file groups) as [|id'] eqn:E; [done|].
    cbn [fst snd]. intros [= H%append_inj_r%Itoa_inj]. subst id'.
    exists name, file, groups. eauto.
  - intros (name & file & groups & -> & -> & -> & -> & _). done.
Qed.

(** X20.  The three reading tools answer a text only with what the
    client gave them, and call the client once, after the ID was
    accepted; a refused ID or a failure of the client or of the
    encoding is answered as an error. *)
Theorem read_tools_spec marshalStacks marshalNames client parser :
  (∀ data, (HandleGetStacks marshalStacks client).1 = MCP.NewToolResultText data ↔
     ∃ stacks, cli_GetStacks client = inr stacks ∧ marshalStacks stacks = inr data)
  ∧ (HandleGetStacks marshalStacks client).2 = [Call_GetStacks]
  ∧ (∀ stackFile,
       (HandleGetStackFile client parser).1 = MCP.NewToolResultText stackFile ↔
       ∃ id, MCP.GetInt parser "id" true = inr id
             ∧ cli_GetStackFile client id = inr stackFile)
  ∧ (HandleGetStackFile client parser).2
    = match MCP.GetInt parser "id" true with
      | inl _ => []
      | inr id => [Call_GetStackFile id]
      end
  ∧ (∀ data,
       (HandleGetStackEnvNames marshalNames client parser).1 = MCP.NewToolResultText data ↔
       ∃ id names, MCP.GetInt parser "id" true = inr id
                   ∧ cli_GetStackEnvNames client id = inr names
                   ∧ marshalNames names = inr data)
  ∧ (HandleGetStackEnvNames marshalNames client parser).2
    = match MCP.GetInt parser "id" true with
      | inl _ => []
      | inr id => [Call_GetStackEnvNames id]
      end.
Proof.
  unfold HandleGetStacks, HandleGetStackFile, HandleGetStackEnvNames.
  repeat split.
  - destruct (cli_GetStacks client) as [|stacks]; [done|].
    destruct (marshalStacks stacks) eqn:E; [done|]. intros [= <-]. eauto.
  - intros (stacks & -> & ->). done.
  - destruct (cli_GetStacks client) as [|stacks]; [done|].
    by destruct (marshalStacks stacks).
  - destruct (MCP.GetInt parser "id" true) as [|id]; [done|].
    destruct (cli_GetStackFile client id) eqn:E; [done|]. intros [= <-]. eauto.
  - intros (id & -> & ->). done.
  - destruct (MCP.GetInt parser "id" true) as [|id]; [done|].
    by destruct (cli_GetStackFile client id).
  - destruct (MCP.GetInt parser "id" true) as [|id]; [done|].
    destruct (cli_GetStackEnvNames client id) as [|names] eqn:E; [done|].
    destruct (marshalNames names) eqn:E'; [done|]. intros [= <-]. eauto.
  - intros (id & names & -> & -> & ->). done.
  - destruct (MCP.GetInt parser "id" true) as [|id]; [done|].
    destruct (cli_GetStackEnvNames client id) as [|names]; [done|].
    by destruct (marshalNames names).
Qed.

End ToolFacts.
